(** * GPS tracker server: ingestion, state store, fan-out and pruning

    A shallow embedding of the tracking server (server.js): the values a
    JSON payload can carry, the coercions [parseFloat] and [parseInt] the
    server applies to them, the in-memory stores [devicePositions] and
    [deviceHistory], the WebSocket registry [wsClients], the counters of
    [serverStats], the handler of [POST /api/track] and the pruning
    statement [cleanupSQL], followed by the properties proved of them. *)

From Stdlib Require Import ZArith Ascii String DecimalString Sorting.Sorted.
From Stdlib Require Import DecimalFacts DecimalPos Zpow_facts.
From stdpp Require Import base decidable countable list strings gmap fin_maps fin_sets sorting.

Open Scope Z_scope.

(** ** JavaScript numbers

    A number is [NaN], an infinity, a signed zero, or a finite non-zero
    value written in decimal: [Dec neg m e] is (-1)^neg * m * 10^e.  The
    rounding of a decimal to the nearest binary64 value and the range limits
    of binary64 are not modelled; every operation the server applies
    (printing, parsing, truthiness, key comparison) is defined on the
    decimal value. *)

Inductive number :=
| NaN
| Infinity (neg : bool)
| Zero (neg : bool)
| Dec (neg : bool) (m : positive) (e : Z).

#[global] Instance number_eq_dec : EqDecision number.
Proof. solve_decision. Defined.

(** Drop trailing decimal zeros of the mantissa into the exponent. *)
Fixpoint strip10 (fuel : nat) (m : positive) (e : Z) : positive * Z :=
  match fuel with
  | O => (m, e)
  | S fuel' =>
      if (N.pos m mod 10 =? 0)%N
      then match (N.pos m / 10)%N with
           | N.pos m' => strip10 fuel' m' (e + 1)
           | N0 => (m, e)
           end
      else (m, e)
  end.

Definition normalize (x : number) : number :=
  match x with
  | Dec neg m e => let '(m', e') := strip10 (Pos.size_nat m) m e in Dec neg m' e'
  | _ => x
  end.

Definition num_of_Z (z : Z) : number :=
  match z with
  | Z0 => Zero false
  | Zpos p => normalize (Dec false p 0)
  | Zneg p => normalize (Dec true p 0)
  end.

(** ToBoolean on a number: NaN, +0 and -0 are falsy. *)
Definition number_truthy (x : number) : bool :=
  match x with
  | NaN | Zero _ => false
  | _ => true
  end.

(** [a || b] where both operands are numbers. *)
Definition num_or (a b : number) : number :=
  if number_truthy a then a else b.

(** ** Number::toString (radix 10) *)

Definition digits_of_pos (p : positive) : list ascii :=
  list_ascii_of_string (NilEmpty.string_of_uint (Pos.to_uint p)).

Definition digits_of_Z_abs (z : Z) : list ascii :=
  match z with
  | Z0 => ["0"%char]
  | Zpos p | Zneg p => digits_of_pos p
  end.

Definition number_to_chars (x : number) : list ascii :=
  match normalize x with
  | NaN => list_ascii_of_string "NaN"
  | Infinity neg =>
      (if neg then ["-"%char] else []) ++ list_ascii_of_string "Infinity"
  | Zero _ => ["0"%char]
  | Dec neg s e =>
      let ds := digits_of_pos s in
      let k := Z.of_nat (length ds) in
      let n := e + k in
      (if neg then ["-"%char] else []) ++
      (if (k <=? n) && (n <=? 21) then
         ds ++ replicate (Z.to_nat (n - k)) "0"%char
       else if (0 <? n) && (n <=? 21) then
         take (Z.to_nat n) ds ++ "."%char :: drop (Z.to_nat n) ds
       else if (-6 <? n) && (n <=? 0) then
         "0"%char :: "."%char :: replicate (Z.to_nat (- n)) "0"%char ++ ds
       else
         let ex := (if n - 1 <? 0 then "-"%char else "+"%char)
                     :: digits_of_Z_abs (n - 1) in
         if k =? 1 then ds ++ "e"%char :: ex
         else take 1 ds ++ "."%char :: drop 1 ds ++ "e"%char :: ex)
  end.

(** ** JavaScript values carried by a parsed JSON payload

    [JUndefined] stands for an absent property.  Nested arrays and objects
    as property values are outside the model. *)

Inductive JsValue :=
| JUndefined
| JNull
| JBool (b : bool)
| JNum (n : number)
| JStr (s : string).

#[global] Instance JsValue_eq_dec : EqDecision JsValue.
Proof. solve_decision. Defined.

(** ToBoolean. *)
Definition truthy (v : JsValue) : bool :=
  match v with
  | JUndefined | JNull => false
  | JBool b => b
  | JNum n => number_truthy n
  | JStr s => negb (String.eqb s "")
  end.

(** [a || b]. *)
Definition js_or (a b : JsValue) : JsValue :=
  if truthy a then a else b.

(** ToString of a primitive. *)
Definition to_chars (v : JsValue) : list ascii :=
  match v with
  | JUndefined => list_ascii_of_string "undefined"
  | JNull => list_ascii_of_string "null"
  | JBool true => list_ascii_of_string "true"
  | JBool false => list_ascii_of_string "false"
  | JNum n => number_to_chars n
  | JStr s => list_ascii_of_string s
  end.

(** ** parseFloat and parseInt *)

(** White space of the ASCII range: TAB, LF, VT, FF, CR, SP. *)
Definition is_space (c : ascii) : bool :=
  let n := nat_of_ascii c in
  ((9 <=? n) && (n <=? 13))%nat || (n =? 32)%nat.

Fixpoint trim_start (s : list ascii) : list ascii :=
  match s with
  | c :: s' => if is_space c then trim_start s' else s
  | [] => []
  end.

Definition digit_val (c : ascii) : option N :=
  let n := N_of_ascii c in
  if ((48 <=? n) && (n <=? 57))%N then Some (n - 48)%N else None.

Definition hex_val (c : ascii) : option N :=
  let n := N_of_ascii c in
  if ((48 <=? n) && (n <=? 57))%N then Some (n - 48)%N
  else if ((97 <=? n) && (n <=? 102))%N then Some (n - 87)%N
  else if ((65 <=? n) && (n <=? 70))%N then Some (n - 55)%N
  else None.

(** Longest prefix of digits in the given radix: the digit values read and
    the rest of the input. *)
Fixpoint span_digits (dv : ascii -> option N) (s : list ascii)
  : list N * list ascii :=
  match s with
  | c :: s' =>
      match dv c with
      | Some d => let '(ds, r) := span_digits dv s' in (d :: ds, r)
      | None => ([], s)
      end
  | [] => ([], [])
  end.

Definition digits_value (radix : N) (ds : list N) : N :=
  foldl (fun acc d => (acc * radix + d)%N) 0%N ds.

Definition signed (neg : bool) (m : N) (e : Z) : number :=
  match m with
  | N0 => Zero neg
  | N.pos p => normalize (Dec neg p e)
  end.

(** An optional leading sign. *)
Definition read_sign (s : list ascii) : bool * list ascii :=
  match s with
  | "-"%char :: s' => (true, s')
  | "+"%char :: s' => (false, s')
  | _ => (false, s)
  end.

(** The exponent part of a decimal literal, 0 when there is none. *)
Definition read_exponent (s : list ascii) : Z :=
  match s with
  | c :: s' =>
      if (c =? "e")%char || (c =? "E")%char then
        let '(neg, s'') := read_sign s' in
        match span_digits digit_val s'' with
        | ([], _) => 0
        | (ds, _) =>
            let v := Z.of_N (digits_value 10 ds) in
            if neg then - v else v
        end
      else 0
  | [] => 0
  end.

Definition is_prefix (p s : list ascii) : bool :=
  bool_decide (take (length p) s = p).

(** parseFloat on the characters of its argument. *)
Definition parseFloat_chars (input : list ascii) : number :=
  let '(neg, s) := read_sign (trim_start input) in
  if is_prefix (list_ascii_of_string "Infinity") s then Infinity neg
  else
    let '(ip, r) := span_digits digit_val s in
    let '(fp, r') :=
      match r with
      | "."%char :: r1 => span_digits digit_val r1
      | _ => ([], r)
      end in
    match ip ++ fp with
    | [] => NaN
    | ds =>
        signed neg (digits_value 10 ds)
               (read_exponent r' - Z.of_nat (length fp))
    end.

(** parseInt with no radix argument.  The digits are read as an exact
    integer: the rounding to binary64, and the infinity the source returns
    for a run of digits beyond the range of binary64, are not
    represented. *)
Definition parseInt_chars (input : list ascii) : number :=
  let '(neg, s) := read_sign (trim_start input) in
  let '(radix, dv, s') :=
    match s with
    | "0"%char :: x :: r =>
        if (x =? "x")%char || (x =? "X")%char then (16%N, hex_val, r)
        else (10%N, digit_val, s)
    | _ => (10%N, digit_val, s)
    end in
  match span_digits dv s' with
  | ([], _) => NaN
  | (ds, _) => signed neg (digits_value radix ds) 0
  end.

Definition parseFloat (v : JsValue) : number := parseFloat_chars (to_chars v).
Definition parseInt (v : JsValue) : number := parseInt_chars (to_chars v).

(** ** Map keys

    A JavaScript [Map] compares keys with SameValueZero: primitives of the
    same type and value are one key, and -0 is stored as +0.  Keys are kept
    in this canonical form, so that equal keys are equal terms. *)

Definition map_key (v : JsValue) : JsValue :=
  match v with
  | JNum n =>
      match normalize n with
      | Zero _ => JNum (Zero false)
      | n' => JNum n'
      end
  | _ => v
  end.

(** Strict equality [===] on primitives. *)
Definition strict_equals (a b : JsValue) : bool :=
  match a, b with
  | JNum NaN, _ | _, JNum NaN => false
  | _, _ => bool_decide (map_key a = map_key b)
  end.

Definition number_code (x : number) : unit + bool + bool + bool * positive * Z :=
  match x with
  | NaN => inl (inl (inl tt))
  | Infinity neg => inl (inl (inr neg))
  | Zero neg => inl (inr neg)
  | Dec neg m e => inr (neg, m, e)
  end.

Definition number_decode (c : unit + bool + bool + bool * positive * Z) : number :=
  match c with
  | inl (inl (inl _)) => NaN
  | inl (inl (inr neg)) => Infinity neg
  | inl (inr neg) => Zero neg
  | inr (neg, m, e) => Dec neg m e
  end.

#[global] Instance number_countable : Countable number.
Proof.
  apply (inj_countable' number_code number_decode).
  by intros [].
Defined.

Definition JsValue_code (v : JsValue) : unit + unit + bool + number + string :=
  match v with
  | JUndefined => inl (inl (inl (inl tt)))
  | JNull => inl (inl (inl (inr tt)))
  | JBool b => inl (inl (inr b))
  | JNum n => inl (inr n)
  | JStr s => inr s
  end.

Definition JsValue_decode (c : unit + unit + bool + number + string) : JsValue :=
  match c with
  | inl (inl (inl (inl _))) => JUndefined
  | inl (inl (inl (inr _))) => JNull
  | inl (inl (inr b)) => JBool b
  | inl (inr n) => JNum n
  | inr s => JStr s
  end.

#[global] Instance JsValue_countable : Countable JsValue.
Proof.
  apply (inj_countable' JsValue_code JsValue_decode).
  by intros [].
Defined.

(** A parsed JSON object: property names to values; reading a property
    that is not there gives [undefined]. *)
Definition prop (o : gmap string JsValue) (name : string) : JsValue :=
  default JUndefined (o !! name).

(** An object literal. *)
Definition obj (l : list (string * JsValue)) : gmap string JsValue :=
  list_to_map l.

(** ** Configuration and server state *)

Record Config := {
  deviceToken : string;
  historyPoints : Z;
  onlineWindowS : Z
}.

(** The object built by [processLocationUpdate] for an accepted payload. *)
Record Position := {
  device_id : JsValue;
  lat : number;
  lng : number;
  speed : number;
  heading : number;
  sats : number;
  timestamp : JsValue
}.

#[global] Instance Position_eq_dec : EqDecision Position.
Proof. solve_decision. Defined.

(** The two messages the server serialises onto a socket. *)
Inductive Message :=
| MsgSnapshot (devices : list Position)
| MsgUpdate (device : Position).

Inductive ReadyState := CONNECTING | OPEN | CLOSING | CLOSED.

#[global] Instance ReadyState_eq_dec : EqDecision ReadyState.
Proof. solve_decision. Defined.

(** A WebSocket object: its [readyState] and the messages handed to
    [ws.send] so far, oldest first. *)
Record Socket := {
  readyState : ReadyState;
  sent : list Message
}.

Record ServerStats := {
  startTime : Z;
  totalDevices : Z;
  totalPositions : Z;
  stats_wsClients : Z
}.

(** The three statements of [updateDatabase]. *)
Inductive Sql := updateDeviceSQL | insertPositionSQL | cleanupSQL.

Inductive LogLine :=
| InvalidLocationData (data : gmap string JsValue)
| PositionUpdated (device_id lat lng : JsValue).

(** The module-level variables of the server.  [sockets] is the heap of
    WebSocket objects, [wsClients] the set of references registered for
    broadcast, [dbRun] the statements handed to [db.run] in call order with
    their bound parameters, [console] the lines logged by
    [processLocationUpdate].  The two [Map]s and the [Set] are finite maps
    and a finite set: the insertion order in which the source iterates them
    is not represented, and nothing below depends on it.  The ping/pong
    heartbeat is left out; its effect on [wsClients] is the removal that the
    close and error handlers perform. *)
Record State := {
  devicePositions : gmap JsValue Position;
  deviceHistory : gmap JsValue (list Position);
  wsClients : gset nat;
  serverStats : ServerStats;
  sockets : gmap nat Socket;
  dbRun : list (Sql * list JsValue);
  console : list LogLine
}.

Definition initial (start : Z) : State := {|
  devicePositions := ∅;
  deviceHistory := ∅;
  wsClients := ∅;
  serverStats := {| startTime := start; totalDevices := 0;
                    totalPositions := 0; stats_wsClients := 0 |};
  sockets := ∅;
  dbRun := [];
  console := []
|}.

Definition with_devicePositions (m : gmap JsValue Position) (st : State) : State :=
  {| devicePositions := m; deviceHistory := deviceHistory st;
     wsClients := wsClients st; serverStats := serverStats st;
     sockets := sockets st; dbRun := dbRun st; console := console st |}.

Definition with_deviceHistory (m : gmap JsValue (list Position)) (st : State) : State :=
  {| devicePositions := devicePositions st; deviceHistory := m;
     wsClients := wsClients st; serverStats := serverStats st;
     sockets := sockets st; dbRun := dbRun st; console := console st |}.

Definition with_wsClients (s : gset nat) (st : State) : State :=
  {| devicePositions := devicePositions st; deviceHistory := deviceHistory st;
     wsClients := s; serverStats := serverStats st;
     sockets := sockets st; dbRun := dbRun st; console := console st |}.

Definition with_serverStats (s : ServerStats) (st : State) : State :=
  {| devicePositions := devicePositions st; deviceHistory := deviceHistory st;
     wsClients := wsClients st; serverStats := s;
     sockets := sockets st; dbRun := dbRun st; console := console st |}.

Definition with_sockets (h : gmap nat Socket) (st : State) : State :=
  {| devicePositions := devicePositions st; deviceHistory := deviceHistory st;
     wsClients := wsClients st; serverStats := serverStats st;
     sockets := h; dbRun := dbRun st; console := console st |}.

Definition with_dbRun (q : list (Sql * list JsValue)) (st : State) : State :=
  {| devicePositions := devicePositions st; deviceHistory := deviceHistory st;
     wsClients := wsClients st; serverStats := serverStats st;
     sockets := sockets st; dbRun := q; console := console st |}.

Definition with_console (c : list LogLine) (st : State) : State :=
  {| devicePositions := devicePositions st; deviceHistory := deviceHistory st;
     wsClients := wsClients st; serverStats := serverStats st;
     sockets := sockets st; dbRun := dbRun st; console := c |}.

(** ** Location processing *)

(** [Array.prototype.splice(0, deleteCount)]: the delete count is clamped
    to the range from 0 to the length of the array. *)
Definition splice0 {A} (deleteCount : Z) (l : list A) : list A :=
  drop (Z.to_nat (Z.min (Z.max deleteCount 0) (Z.of_nat (length l)))) l.

(** [if (history.length > config.historyPoints)
      history.splice(0, history.length - config.historyPoints)] *)
Definition prune_history {A} (historyPoints : Z) (history : list A) : list A :=
  if Z.of_nat (length history) >? historyPoints
  then splice0 (Z.of_nat (length history) - historyPoints) history
  else history.

(** The guard of [processLocationUpdate] and of the track route:
    [!device_id || !lat || !lng]. *)
Definition missing_required (data : gmap string JsValue) : bool :=
  negb (truthy (prop data "device_id"))
  || negb (truthy (prop data "lat"))
  || negb (truthy (prop data "lng")).

Definition make_position (now : Z) (data : gmap string JsValue) : Position := {|
  device_id := prop data "device_id";
  lat := parseFloat (prop data "lat");
  lng := parseFloat (prop data "lng");
  speed := num_or (parseFloat (prop data "speed")) (Zero false);
  heading := num_or (parseInt (prop data "heading")) (Zero false);
  sats := num_or (parseInt (prop data "sats")) (Zero false);
  timestamp := js_or (prop data "ts") (JNum (num_of_Z now))
|}.

Definition updateDatabase (cfg : Config) (position : Position) (st : State) : State :=
  let d := device_id position in
  with_dbRun
    (dbRun st ++
     [ (updateDeviceSQL,
        [d; timestamp position; JNum (lat position); JNum (lng position);
         JNum (speed position); JNum (heading position); JNum (sats position)]);
       (insertPositionSQL,
        [d; JNum (lat position); JNum (lng position); JNum (speed position);
         JNum (heading position); JNum (sats position); timestamp position]);
       (cleanupSQL, [d; d; JNum (num_of_Z (historyPoints cfg))]) ])
    st.

Definition ws_send (message : Message) (s : Socket) : Socket :=
  {| readyState := readyState s; sent := sent s ++ [message] |}.

Definition send_if_open (message : Message) (h : gmap nat Socket) (ws : nat)
  : gmap nat Socket :=
  match h !! ws with
  | Some s =>
      if bool_decide (readyState s = OPEN) then <[ws := ws_send message s]> h
      else h
  | None => h
  end.

Definition broadcastUpdate (position : Position) (st : State) : State :=
  let message := MsgUpdate position in
  with_sockets
    (foldl (send_if_open message) (sockets st) (elements (wsClients st))) st.

Definition bump_stats (known : bool) (s : ServerStats) : ServerStats :=
  {| startTime := startTime s;
     totalDevices := if known then totalDevices s else totalDevices s + 1;
     totalPositions := totalPositions s + 1;
     stats_wsClients := stats_wsClients s |}.

Definition processLocationUpdate (cfg : Config) (now : Z)
    (data : gmap string JsValue) (st : State) : State :=
  if missing_required data then
    with_console (console st ++ [InvalidLocationData data]) st
  else
    let position := make_position now data in
    let key := map_key (device_id position) in
    (* devicePositions.set(device_id, position) *)
    let st := with_devicePositions (<[key := position]> (devicePositions st)) st in
    (* if (!deviceHistory.has(device_id)) deviceHistory.set(device_id, []) *)
    let st :=
      match deviceHistory st !! key with
      | None => with_deviceHistory (<[key := []]> (deviceHistory st)) st
      | Some _ => st
      end in
    (* history.push(position), then the prune by splice *)
    let history := default [] (deviceHistory st !! key) ++ [position] in
    let history := prune_history (historyPoints cfg) history in
    let st := with_deviceHistory (<[key := history]> (deviceHistory st)) st in
    let st := updateDatabase cfg position st in
    let st := broadcastUpdate position st in
    (* totalPositions++; if (!devicePositions.has(device_id)) totalDevices++ *)
    let st :=
      with_serverStats
        (bump_stats (bool_decide (is_Some (devicePositions st !! key)))
                    (serverStats st)) st in
    with_console
      (console st ++
       [PositionUpdated (prop data "device_id") (prop data "lat") (prop data "lng")])
      st.

(** ** WebSocket handlers *)

(** [wss.on('connection')]: the new socket object is allocated at an unused
    reference, is open, is registered, and receives the snapshot when there
    is at least one known device. *)
Definition on_connection (st : State) : State :=
  let ws := fresh (dom (sockets st)) in
  let st := with_sockets (<[ws := {| readyState := OPEN; sent := [] |}]> (sockets st)) st in
  let st := with_wsClients ({[ws]} ∪ wsClients st) st in
  let st :=
    with_serverStats
      {| startTime := startTime (serverStats st);
         totalDevices := totalDevices (serverStats st);
         totalPositions := totalPositions (serverStats st);
         stats_wsClients := Z.of_nat (size (wsClients st)) |} st in
  let currentPositions := (map_to_list (devicePositions st)).*2 in
  if (0 <? Z.of_nat (length currentPositions)) then
    with_sockets (alter (ws_send (MsgSnapshot currentPositions)) ws (sockets st)) st
  else st.

(** [ws.on('close')] and [ws.on('error')]: the socket leaves the registry. *)
Definition on_close (ws : nat) (st : State) : State :=
  let st := with_wsClients (wsClients st ∖ {[ws]}) st in
  with_serverStats
    {| startTime := startTime (serverStats st);
       totalDevices := totalDevices (serverStats st);
       totalPositions := totalPositions (serverStats st);
       stats_wsClients := Z.of_nat (size (wsClients st)) |} st.

Definition on_error (ws : nat) (st : State) : State := on_close ws st.

(** The transport moves a socket to another [readyState]. *)
Definition set_readyState (ws : nat) (rs : ReadyState) (st : State) : State :=
  with_sockets
    (alter (fun s => {| readyState := rs; sent := sent s |}) ws (sockets st)) st.

(** ** API routes *)

Record Request := {
  body : gmap string JsValue;
  headers : gmap string JsValue;
  query : gmap string JsValue
}.

Inductive Json :=
| JsonError (error : string)
| JsonMessage (message : string)
| JsonPositions (count : nat) (devices : list Position)
| JsonStats (totalDevices totalPositions wsClients historyPoints onlineWindowS : Z).

Record Response := {
  status : Z;
  json : Json
}.

(** [req.headers['x-device-token'] || req.query.token] *)
Definition supplied_token (req : Request) : JsValue :=
  js_or (prop (headers req) "x-device-token") (prop (query req) "token").

(** [app.post('/api/track')] *)
Definition post_track (cfg : Config) (now : Z) (req : Request) (st : State)
  : State * Response :=
  if missing_required (body req) then
    (st, {| status := 400;
            json := JsonError "Missing required fields: device_id, lat, lng" |})
  else if negb (strict_equals (supplied_token req) (JStr (deviceToken cfg))) then
    (st, {| status := 401; json := JsonError "Invalid device token" |})
  else
    (processLocationUpdate cfg now (body req) st,
     {| status := 200; json := JsonMessage "Position updated successfully" |}).

(** [app.get('/api/positions')] *)
Definition get_positions (st : State) : Response :=
  let positions := (map_to_list (devicePositions st)).*2 in
  {| status := 200; json := JsonPositions (length positions) positions |}.

(** [app.get('/api/stats')], the counters read from [serverStats] and the
    configuration (the clock-dependent fields are left out). *)
Definition get_stats (cfg : Config) (st : State) : Response :=
  {| status := 200;
     json := JsonStats (totalDevices (serverStats st))
                       (totalPositions (serverStats st))
                       (stats_wsClients (serverStats st))
                       (historyPoints cfg) (onlineWindowS cfg) |}.

(** ** Events and runs

    The server reacts to one event at a time: an MQTT message (already
    parsed), a track request, and the WebSocket events.  [now] is the value
    [Date.now()] has while the event is handled. *)
Inductive Event :=
| MqttMessage (now : Z) (data : gmap string JsValue)
| PostTrack (now : Z) (req : Request)
| WsConnection
| WsClose (ws : nat)
| WsError (ws : nat)
| WsReadyState (ws : nat) (rs : ReadyState).

Definition step (cfg : Config) (st : State) (ev : Event) : State :=
  match ev with
  | MqttMessage now data => processLocationUpdate cfg now data st
  | PostTrack now req => (post_track cfg now req st).1
  | WsConnection => on_connection st
  | WsClose ws => on_close ws st
  | WsError ws => on_error ws st
  | WsReadyState ws rs => set_readyState ws rs st
  end.

Definition run (cfg : Config) (st : State) (evs : list Event) : State :=
  foldl (step cfg) st evs.

(** The record an event makes the server accept, if any. *)
Definition accepted (cfg : Config) (ev : Event) : option Position :=
  match ev with
  | MqttMessage now data =>
      if missing_required data then None else Some (make_position now data)
  | PostTrack now req =>
      if missing_required (body req) then None
      else if negb (strict_equals (supplied_token req) (JStr (deviceToken cfg)))
      then None
      else Some (make_position now (body req))
  | _ => None
  end.

(** The accepted records of a run, in arrival order, and those of one
    device. *)
Definition accepted_records (cfg : Config) (evs : list Event) : list Position :=
  omap (accepted cfg) evs.

Definition key_of (p : Position) : JsValue := map_key (device_id p).

Definition records_of (d : JsValue) (recs : list Position) : list Position :=
  filter (fun p => key_of p = d) recs.

(** The history array of a device ([[]] when the map has none). *)
Definition history_of (d : JsValue) (st : State) : list Position :=
  default [] (deviceHistory st !! d).

(** ** The positions table and the pruning statement

    The statements of [updateDatabase] run inside SQLite.  The table is
    modelled with the column types its schema declares, and [cleanupSQL]
    with the documented meaning of its clauses. *)
Module Sqlite.

(** A row of [positions] (CREATE TABLE positions). *)
Record Row := {
  id : Z;
  device_id : string;
  lat : number;
  lng : number;
  speed : number;
  heading : number;
  sats : number;
  timestamp : Z
}.

#[global] Instance Row_eq_dec : EqDecision Row.
Proof. solve_decision. Defined.

(** [LIMIT n]: a negative bound is no bound. *)
Definition limit {A} (n : Z) (l : list A) : list A :=
  if n <? 0 then l else take (Z.to_nat n) l.

(** [WHERE device_id = ?] *)
Definition where_device (d : string) (t : list Row) : list Row :=
  filter (fun r => device_id r = d) t.

Definition timestamp_desc (a b : Row) : Prop := timestamp b <= timestamp a.

(** [ORDER BY timestamp DESC]: the selected rows arranged so that the
    timestamp never increases.  The statement names no second sort key,
    so the order among rows of equal timestamp is the engine's choice:
    [scan] is any arrangement that qualifies. *)
Definition order_by_timestamp_desc (rows scan : list Row) : Prop :=
  scan ≡ₚ rows ∧ Sorted timestamp_desc scan.

(** [DELETE FROM positions WHERE device_id = d1 AND id NOT IN
    (SELECT id ... WHERE device_id = d2 ORDER BY timestamp DESC LIMIT lim)],
    given the order [scan] in which the inner SELECT yields its rows. *)
Definition cleanup (d1 : string) (lim : Z) (scan : list Row) (t : list Row)
  : list Row :=
  filter (fun r => ¬ (device_id r = d1 ∧ id r ∉ id <$> limit lim scan)) t.

(** The tables the statement can leave behind. *)
Inductive cleanup_result (d1 d2 : string) (lim : Z) (t : list Row)
  : list Row -> Prop :=
| cleanup_intro scan :
    order_by_timestamp_desc (where_device d2 t) scan ->
    cleanup_result d1 d2 lim t (cleanup d1 lim scan t).

(** Two engines that satisfy the ORDER BY clause: among rows of equal
    timestamp one yields the larger row id first, the other the smaller. *)
Definition newest_id_first (a b : Row) : Prop :=
  timestamp b < timestamp a ∨ (timestamp b = timestamp a ∧ id b <= id a).

Definition oldest_id_first (a b : Row) : Prop :=
  timestamp b < timestamp a ∨ (timestamp b = timestamp a ∧ id a <= id b).

#[global] Instance newest_id_first_dec a b : Decision (newest_id_first a b).
Proof. unfold newest_id_first. apply _. Defined.

#[global] Instance oldest_id_first_dec a b : Decision (oldest_id_first a b).
Proof. unfold oldest_id_first. apply _. Defined.

Definition scan_newest_id_first (rows : list Row) : list Row :=
  merge_sort newest_id_first rows.

Definition scan_oldest_id_first (rows : list Row) : list Row :=
  merge_sort oldest_id_first rows.

(** The pruning step as the specification words it: order by timestamp
    descending, ties broken by row id so that the oldest row id is deleted
    first, delete everything beyond the first [lim] rows. *)
Definition prune_spec (d : string) (lim : Z) (t : list Row) : list Row :=
  cleanup d lim (scan_newest_id_first (where_device d t)) t.

End Sqlite.

(** ** Sample data *)

Definition sample_config : Config :=
  {| deviceToken := "test_token_123"; historyPoints := 2; onlineWindowS := 60 |}.

(** [{device_id: "D1", lat: 40.7128, lng: -74.0060}] *)
Definition new_york : gmap string JsValue :=
  obj [("device_id", JStr "D1");
       ("lat", JNum (Dec false 407128 (-4)));
       ("lng", JNum (Dec true 740060 (-4)))].

(** [{lat: 40.0}] *)
Definition only_lat : gmap string JsValue :=
  obj [("lat", JNum (Dec false 400 (-1)))].


(** [{device_id: "D1", lat: 40.7128, lng: -74.0060, ts: "yesterday"}] *)
Definition text_ts : gmap string JsValue :=
  <["ts" := JStr "yesterday"]> new_york.

(** [{device_id: "D2", lat: 51.5, lng: 7}] *)
Definition dortmund : gmap string JsValue :=
  obj [("device_id", JStr "D2");
       ("lat", JNum (Dec false 515 (-1)));
       ("lng", JNum (Dec false 7 0))].

(** Track requests: a complete body with a wrong token in the header, the
    same body with no token at all, and a body without [device_id] and
    [lng] with a wrong token. *)
Definition wrong_token_request : Request :=
  {| body := new_york;
     headers := obj [("x-device-token", JStr "guess")];
     query := ∅ |}.

Definition no_token_request : Request :=
  {| body := new_york; headers := ∅; query := ∅ |}.

Definition incomplete_request : Request :=
  {| body := only_lat;
     headers := obj [("x-device-token", JStr "guess")];
     query := ∅ |}.

(** Two sockets connected, the first one closed and removed since. *)
Definition two_sockets : State :=
  run sample_config (initial 0) [WsConnection; WsConnection; WsClose 0].

(** A row of the positions table with the given id, device and
    timestamp. *)
Definition row (i : Z) (d : string) (ts : Z) : Sqlite.Row :=
  {| Sqlite.id := i; Sqlite.device_id := d;
     Sqlite.lat := Dec false 407128 (-4); Sqlite.lng := Dec true 74006 (-3);
     Sqlite.speed := Zero false; Sqlite.heading := Zero false;
     Sqlite.sats := Zero false; Sqlite.timestamp := ts |}.

(** Two rows of one device with the same timestamp. *)
Definition tied_rows : list Sqlite.Row := [row 1 "D1" 100; row 2 "D1" 100].

(** ** Loading the configuration *)

(** [process.env.NAME]: a string, or undefined when the variable is not
    set. *)
Definition env_var (env : gmap string string) (name : string) : JsValue :=
  match env !! name with
  | Some s => JStr s
  | None => JUndefined
  end.

(** The integer a whole number stands for. *)
Definition number_to_Z (x : number) : Z :=
  match x with
  | Dec neg m e => (if neg then -1 else 1) * (Z.pos m * 10 ^ e)
  | _ => 0
  end.

(** A number with no fractional part. *)
Definition is_whole (x : number) : Prop :=
  match x with
  | Zero _ => True
  | Dec _ _ e => 0 <= e
  | _ => False
  end.

(** The fields of [config] the model uses:
    [process.env.DEVICE_TOKEN || 'default_token'],
    [parseInt(process.env.HISTORY_POINTS) || 500],
    [parseInt(process.env.ONLINE_WINDOW_S) || 60]. *)
Definition load_config (env : gmap string string) : Config :=
  {| deviceToken :=
       match js_or (env_var env "DEVICE_TOKEN") (JStr "default_token") with
       | JStr s => s
       | _ => "default_token"
       end;
     historyPoints :=
       number_to_Z (num_or (parseInt (env_var env "HISTORY_POINTS"))
                           (Dec false 5 2));
     onlineWindowS :=
       number_to_Z (num_or (parseInt (env_var env "ONLINE_WINDOW_S"))
                           (Dec false 6 1)) |}.

(** ** Executing the other statements

    The statements of [updateDatabase] and of the history route, on tables
    typed as the schema declares them.  An AUTOINCREMENT key takes one more
    than the largest id the table ever held, which [sqlite_sequence]
    records. *)
Module Tables.

(** The positions table with its sequence counter. *)
Record Positions := {
  rows : list Sqlite.Row;
  sequence : Z
}.

Definition empty : Positions := {| rows := []; sequence := 0 |}.

Definition next_id (ids : list Z) (seq : Z) : Z := 1 + foldr Z.max seq ids.

(** [INSERT INTO positions (device_id, lat, lng, speed, heading, sats,
    timestamp) VALUES (?, ?, ?, ?, ?, ?, ?)] *)
Definition insert_position (d : string) (lat lng speed heading sats : number)
    (ts : Z) (db : Positions) : Positions :=
  let i := next_id (Sqlite.id <$> rows db) (sequence db) in
  {| rows := rows db ++
             [ {| Sqlite.id := i; Sqlite.device_id := d; Sqlite.lat := lat;
                  Sqlite.lng := lng; Sqlite.speed := speed;
                  Sqlite.heading := heading; Sqlite.sats := sats;
                  Sqlite.timestamp := ts |} ];
     sequence := i |}.

(** One statement on the positions table: an insert, or the cleanup for a
    device with the order the engine gave its inner SELECT. *)
Inductive statement (lim : Z) (db : Positions) : Positions -> Prop :=
| run_insert d lat lng speed heading sats ts :
    statement lim db (insert_position d lat lng speed heading sats ts db)
| run_cleanup d t' :
    Sqlite.cleanup_result d d lim (rows db) t' ->
    statement lim db {| rows := t'; sequence := sequence db |}.

(** Any number of statements, in any order. *)
Inductive statements (lim : Z) (db : Positions) : Positions -> Prop :=
| statements_done : statements lim db db
| statements_then db1 db2 :
    statements lim db db1 -> statement lim db1 db2 -> statements lim db db2.

(** A row of [devices] (CREATE TABLE devices). *)
Record Device := {
  id : Z;
  device_id : string;
  last_seen : Z;
  last_lat : number;
  last_lng : number;
  last_speed : number;
  last_heading : number;
  last_sats : number;
  created_at : Z;
  updated_at : Z
}.

Record Devices := {
  devices : list Device;
  devices_sequence : Z
}.

(** [INSERT OR REPLACE INTO devices (device_id, last_seen, last_lat,
    last_lng, last_speed, last_heading, last_sats, updated_at)
    VALUES (?, ?, ?, ?, ?, ?, ?, strftime('%s', 'now'))] at [clock] seconds:
    the row that holds the same [device_id], which is UNIQUE, is deleted and
    the new row is inserted, with a new id and the default [created_at]. *)
Definition upsert_device (clock : Z) (d : string) (seen : Z)
    (lat lng speed heading sats : number) (db : Devices) : Devices :=
  let i := next_id (id <$> devices db) (devices_sequence db) in
  {| devices := filter (fun r => device_id r ≠ d) (devices db) ++
                [ {| id := i; device_id := d; last_seen := seen;
                     last_lat := lat; last_lng := lng; last_speed := speed;
                     last_heading := heading; last_sats := sats;
                     created_at := clock; updated_at := clock |} ];
     devices_sequence := i |}.

(** The columns the history route selects. *)
Record HistoryRow := {
  lat : number;
  lng : number;
  speed : number;
  heading : number;
  sats : number;
  timestamp : Z
}.

Definition select_columns (r : Sqlite.Row) : HistoryRow :=
  {| lat := Sqlite.lat r; lng := Sqlite.lng r; speed := Sqlite.speed r;
     heading := Sqlite.heading r; sats := Sqlite.sats r;
     timestamp := Sqlite.timestamp r |}.

Record HistoryResponse := {
  status : Z;
  success : bool;
  response_device_id : string;
  count : nat;
  positions : list HistoryRow
}.

(** [parseInt(req.query.limit) || 100] *)
Definition history_limit (query : gmap string JsValue) : Z :=
  number_to_Z (num_or (parseInt (prop query "limit")) (Dec false 1 2)).

(** [app.get('/api/history/:deviceId')] when the query succeeds, [scan]
    being the rows of the device in the order the engine yields them for
    ORDER BY timestamp DESC. *)
Definition get_history (deviceId : string) (query : gmap string JsValue)
    (scan : list Sqlite.Row) : HistoryResponse :=
  let rows := select_columns <$> Sqlite.limit (history_limit query) scan in
  {| status := 200; success := true; response_device_id := deviceId;
     count := length rows; positions := rows |}.

(** The responses the route can give on a table. *)
Inductive history_result (deviceId : string) (query : gmap string JsValue)
    (t : list Sqlite.Row) : HistoryResponse -> Prop :=
| history_intro scan :
    Sqlite.order_by_timestamp_desc (Sqlite.where_device deviceId t) scan ->
    history_result deviceId query t (get_history deviceId query scan).

End Tables.

(** ** The heartbeat

    Every 30 seconds [setInterval] visits the sockets of [wss.clients].  A
    socket whose [isAlive] flag is [false] is terminated and leaves the
    registry; any other socket has its flag cleared and is pinged; a pong
    sets the flag again.  [isAlive] maps a socket reference to its flag
    (absent: the property was never set); the calls of [ws.terminate] and
    [ws.ping] are recorded in call order. *)
Module Heartbeat.

Inductive Call := Terminate | Ping.

Record Beat := {
  server : State;
  isAlive : gmap nat bool;
  calls : list (nat * Call)
}.

(** The body of [wss.clients.forEach]; the removal is the two statements
    of the close handler. *)
Definition visit (b : Beat) (ws : nat) : Beat :=
  if bool_decide (isAlive b !! ws = Some false) then
    {| server := on_close ws (server b);
       isAlive := isAlive b;
       calls := calls b ++ [(ws, Terminate)] |}
  else
    {| server := server b;
       isAlive := <[ws := false]> (isAlive b);
       calls := calls b ++ [(ws, Ping)] |}.

(** One tick of the interval over the sockets [clients] the WebSocket
    server holds. *)
Definition heartbeat (clients : list nat) (st : State)
    (alive : gmap nat bool) : Beat :=
  foldl visit {| server := st; isAlive := alive; calls := [] |} clients.

(** [ws.on('pong')] *)
Definition on_pong (ws : nat) (alive : gmap nat bool) : gmap nat bool :=
  <[ws := true]> alive.


End Heartbeat.

(** ** Observers used by the further properties *)

(** The digit values of a run of digit characters, and the digits of a
    decimal numeral. *)
Definition digit_vals (l : list ascii) : list N := omap digit_val l.

Definition all_digits (l : list ascii) : Prop :=
  Forall (fun c => is_Some (digit_val c)) l.

Definition no_digit_head (l : list ascii) : Prop :=
  match l with
  | [] => True
  | c :: _ => digit_val c = None
  end.

Fixpoint uint_digits (u : Decimal.uint) : list N :=
  match u with
  | Decimal.Nil => []
  | Decimal.D0 u => 0%N :: uint_digits u
  | Decimal.D1 u => 1%N :: uint_digits u
  | Decimal.D2 u => 2%N :: uint_digits u
  | Decimal.D3 u => 3%N :: uint_digits u
  | Decimal.D4 u => 4%N :: uint_digits u
  | Decimal.D5 u => 5%N :: uint_digits u
  | Decimal.D6 u => 6%N :: uint_digits u
  | Decimal.D7 u => 7%N :: uint_digits u
  | Decimal.D8 u => 8%N :: uint_digits u
  | Decimal.D9 u => 9%N :: uint_digits u
  end.

(** The value [parseFloat] gives back for a number: the number in canonical
    form, with -0 read as 0. *)
Definition reparsed (x : number) : number :=
  match normalize x with
  | Zero _ => Zero false
  | y => y
  end.

(** The integer part of a number, towards zero. *)
Definition number_trunc (x : number) : Z :=
  match x with
  | Dec neg m e =>
      let a := if 0 <=? e then Z.pos m * 10 ^ e else Z.pos m / 10 ^ (- e) in
      if neg then - a else a
  | _ => 0
  end.

(** The ids of a positions table are positive, distinct and covered by the
    sequence counter. *)
Definition ids_ok (db : Tables.Positions) : Prop :=
  0 <= Tables.sequence db
  ∧ NoDup (Sqlite.id <$> Tables.rows db)
  ∧ ∀ i, i ∈ Sqlite.id <$> Tables.rows db -> 0 < i <= Tables.sequence db.


(** The three [db.run] calls [updateDatabase] makes for a record. *)
Definition statements_for (cfg : Config) (p : Position)
  : list (Sql * list JsValue) :=
  [ (updateDeviceSQL,
     [device_id p; timestamp p; JNum (lat p); JNum (lng p);
      JNum (speed p); JNum (heading p); JNum (sats p)]);
    (insertPositionSQL,
     [device_id p; JNum (lat p); JNum (lng p); JNum (speed p);
      JNum (heading p); JNum (sats p); timestamp p]);
    (cleanupSQL, [device_id p; device_id p; JNum (num_of_Z (historyPoints cfg))]) ].

(** The event is a close, an error or a transport change of socket [ws]. *)
Definition touches (ws : nat) (ev : Event) : Prop :=
  match ev with
  | WsClose ws' | WsError ws' | WsReadyState ws' _ => ws' = ws
  | _ => False
  end.

(** What a socket connecting in state [st] is sent at once. *)
Definition snapshot_of (st : State) : list Message :=
  match (map_to_list (devicePositions st)).*2 with
  | [] => []
  | currentPositions => [MsgSnapshot currentPositions]
  end.

(** The registry is in step with its counter and refers to sockets that
    exist. *)
Definition registry_ok (st : State) : Prop :=
  stats_wsClients (serverStats st) = Z.of_nat (size (wsClients st))
  ∧ wsClients st ⊆ dom (sockets st).

(** The positions listed by GET /api/positions. *)
Definition listed (st : State) : list Position :=
  (map_to_list (devicePositions st)).*2.

(** ** Online devices

    [onlineDevices] of GET /api/stats counts the latest positions whose
    [timestamp] is greater than [now - config.onlineWindowS * 1000].  The
    operator [>] converts the timestamp with ToNumber and is false when an
    operand is NaN.  The conversion of a string (StringToNumber) is a
    parameter of the definitions. *)

Definition exponent_of (x : number) : Z :=
  match x with
  | Dec _ _ e => e
  | _ => 0
  end.

(** The value of a finite number in units of [10 ^ e], for [e] not above
    its exponent. *)
Definition scaled (e : Z) (x : number) : Z :=
  match x with
  | Dec neg m e' => (if neg then -1 else 1) * (Z.pos m * 10 ^ (e' - e))
  | _ => 0
  end.

(** [a < b] on numbers. *)
Definition number_lt (a b : number) : bool :=
  match a, b with
  | NaN, _ | _, NaN => false
  | Infinity na, Infinity nb => na && negb nb
  | Infinity na, _ => na
  | _, Infinity nb => negb nb
  | _, _ =>
      let e := Z.min (exponent_of a) (exponent_of b) in
      scaled e a <? scaled e b
  end.

Section online.
Variable string_to_number : string -> number.

(** ToNumber of a primitive. *)
Definition to_number (v : JsValue) : number :=
  match v with
  | JUndefined => NaN
  | JNull => Zero false
  | JBool b => if b then Dec false 1 0 else Zero false
  | JNum n => n
  | JStr s => string_to_number s
  end.

(** [pos.timestamp > onlineThreshold] *)
Definition online (cfg : Config) (now : Z) (pos : Position) : bool :=
  number_lt (num_of_Z (now - onlineWindowS cfg * 1000))
            (to_number (timestamp pos)).

Definition online_count (cfg : Config) (now : Z) (positions : list Position)
  : nat :=
  length (filter (fun pos => online cfg now pos = true) positions).

(** The [onlineDevices] figure of GET /api/stats at time [now]. *)
Definition online_devices (cfg : Config) (now : Z) (st : State) : nat :=
  online_count cfg now (listed st).

End online.

(** ** More sample data *)


Definition query_token_request : Request :=
  {| body := new_york;
     headers := ∅;
     query := obj [("token", JStr "test_token_123")] |}.

Definition header_and_query_request : Request :=
  {| body := new_york;
     headers := obj [("x-device-token", JStr "guess")];
     query := obj [("token", JStr "test_token_123")] |}.

(** [{device_id: "D1", lat: 0, lng: -74.0060}], a position on the equator,
    sent with a wrong token in the header. *)
Definition zero_lat : gmap string JsValue :=
  obj [("device_id", JStr "D1");
       ("lat", JNum (Zero false));
       ("lng", JNum (Dec true 740060 (-4)))].

Definition zero_lat_request : Request :=
  {| body := zero_lat;
     headers := obj [("x-device-token", JStr "guess")];
     query := ∅ |}.

(** HISTORY_POINTS=-5 *)
Definition negative_config : Config :=
  {| deviceToken := "test_token_123"; historyPoints := -5;
     onlineWindowS := 60 |}.

(** Three rows of one device and one of another. *)
Definition sample_rows : list Sqlite.Row :=
  [row 1 "D1" 100; row 2 "D2" 50; row 3 "D1" 300; row 4 "D1" 200].

(** A devices table that holds one device. *)
Definition one_device : Tables.Devices :=
  Tables.upsert_device 10 "D1" 100 (Dec false 407128 (-4))
    (Dec true 74006 (-3)) (Zero false) (Zero false) (Zero false)
    {| Tables.devices := []; Tables.devices_sequence := 0 |}.

(** * Properties *)

(** ** Effect of one event on the stores *)

Section store.
Context (cfg : Config).

Lemma processLocationUpdate_rejected now data st :
  missing_required data = true ->
  processLocationUpdate cfg now data st
  = with_console (console st ++ [InvalidLocationData data]) st.
Proof. intros Hm. unfold processLocationUpdate. by rewrite Hm. Qed.

Lemma processLocationUpdate_devicePositions now data st :
  missing_required data = false ->
  let p := make_position now data in
  devicePositions (processLocationUpdate cfg now data st)
  = <[key_of p := p]> (devicePositions st).
Proof.
  intros Hm. unfold processLocationUpdate. rewrite Hm. simpl.
  by destruct (deviceHistory st !! _).
Qed.

Lemma processLocationUpdate_deviceHistory now data st :
  missing_required data = false ->
  let p := make_position now data in
  deviceHistory (processLocationUpdate cfg now data st)
  = <[key_of p := prune_history (historyPoints cfg)
                    (history_of (key_of p) st ++ [p])]> (deviceHistory st).
Proof.
  intros Hm. unfold processLocationUpdate, history_of, key_of. rewrite Hm.
  simpl. destruct (deviceHistory st !! _) as [h|] eqn:Hh; simpl.
  - by rewrite Hh.
  - by rewrite lookup_insert_eq, insert_insert_eq.
Qed.

Lemma processLocationUpdate_serverStats now data st :
  missing_required data = false ->
  serverStats (processLocationUpdate cfg now data st)
  = bump_stats true (serverStats st).
Proof.
  intros Hm. unfold processLocationUpdate. rewrite Hm. simpl.
  destruct (deviceHistory st !! _); simpl;
    by rewrite lookup_insert_eq, bool_decide_eq_true_2.
Qed.

Lemma processLocationUpdate_wsClients now data st :
  wsClients (processLocationUpdate cfg now data st) = wsClients st.
Proof.
  unfold processLocationUpdate. destruct (missing_required data); [done|].
  simpl. by destruct (deviceHistory st !! _).
Qed.

Lemma processLocationUpdate_sockets now data st :
  missing_required data = false ->
  sockets (processLocationUpdate cfg now data st)
  = foldl (send_if_open (MsgUpdate (make_position now data)))
          (sockets st) (elements (wsClients st)).
Proof.
  intros Hm. unfold processLocationUpdate. rewrite Hm. simpl.
  by destruct (deviceHistory st !! _).
Qed.

(** An event that makes the server accept a record. *)
Lemma step_accepted st ev p :
  accepted cfg ev = Some p ->
  devicePositions (step cfg st ev) = <[key_of p := p]> (devicePositions st)
  ∧ deviceHistory (step cfg st ev)
    = <[key_of p := prune_history (historyPoints cfg)
                      (history_of (key_of p) st ++ [p])]> (deviceHistory st)
  ∧ serverStats (step cfg st ev) = bump_stats true (serverStats st).
Proof.
  destruct ev as [now data|now req| | | |]; simpl; try done.
  - destruct (missing_required data) eqn:Hm; [done|]. intros [= <-].
    by rewrite processLocationUpdate_devicePositions,
      processLocationUpdate_deviceHistory, processLocationUpdate_serverStats.
  - unfold post_track. destruct (missing_required (body req)) eqn:Hm; [done|].
    destruct (negb _); [done|]. intros [= <-]. simpl.
    by rewrite processLocationUpdate_devicePositions,
      processLocationUpdate_deviceHistory, processLocationUpdate_serverStats.
Qed.

(** Any other event leaves the stores and the ingestion counters alone. *)
Lemma step_not_accepted st ev :
  accepted cfg ev = None ->
  devicePositions (step cfg st ev) = devicePositions st
  ∧ deviceHistory (step cfg st ev) = deviceHistory st
  ∧ totalDevices (serverStats (step cfg st ev)) = totalDevices (serverStats st)
  ∧ totalPositions (serverStats (step cfg st ev))
    = totalPositions (serverStats st).
Proof.
  destruct ev as [now data|now req| | | |]; simpl.
  - destruct (missing_required data) eqn:Hm; [|done]. intros _.
    by rewrite processLocationUpdate_rejected.
  - unfold post_track. destruct (missing_required (body req)) eqn:Hm; [done|].
    by destruct (negb _).
  - intros _. unfold on_connection. simpl. by case_match.
  - done.
  - done.
  - done.
Qed.

Lemma run_snoc st evs ev :
  run cfg st (evs ++ [ev]) = step cfg (run cfg st evs) ev.
Proof. unfold run. by rewrite foldl_app. Qed.

Lemma accepted_records_snoc evs ev :
  accepted_records cfg (evs ++ [ev])
  = accepted_records cfg evs ++ option_list (accepted cfg ev).
Proof.
  unfold accepted_records. rewrite omap_app. simpl.
  by destruct (accepted cfg ev).
Qed.

(** Induction over the runs of the server, in step with the records it
    accepts. *)
Lemma run_accepted_ind start (P : list Position -> State -> Prop) :
  P [] (initial start) ->
  (∀ recs st ev p,
     P recs st -> accepted cfg ev = Some p ->
     P (recs ++ [p]) (step cfg st ev)) ->
  (∀ recs st ev,
     P recs st -> accepted cfg ev = None -> P recs (step cfg st ev)) ->
  ∀ evs, P (accepted_records cfg evs) (run cfg (initial start) evs).
Proof.
  intros Hinit Hacc Hrej evs.
  induction evs as [|ev evs IH] using rev_ind; [done|].
  rewrite run_snoc, accepted_records_snoc.
  destruct (accepted cfg ev) as [p|] eqn:Hev; simpl.
  - by apply Hacc.
  - rewrite app_nil_r. by apply Hrej.
Qed.

End store.

(** ** Bounded history *)

(** Under a negative bound the array is emptied at every push. *)
Lemma prune_history_negative {A} (H : Z) (h : list A) :
  H < 0 -> prune_history H h = [].
Proof.
  intros HH. unfold prune_history, splice0.
  destruct (Z.gtb_spec (Z.of_nat (length h)) H); [|lia].
  apply drop_ge. lia.
Qed.

Lemma prune_history_drop {A} (H : Z) (h : list A) :
  0 <= H -> prune_history H h = drop (length h - Z.to_nat H) h.
Proof.
  intros HH. unfold prune_history, splice0.
  destruct (Z.gtb_spec (Z.of_nat (length h)) H).
  - f_equal. lia.
  - replace (length h - Z.to_nat H)%nat with 0%nat by lia. done.
Qed.

(** Pushing onto the last [H] records and pruning gives the last [H]
    records of the longer sequence. *)
Lemma prune_history_push {A} (H : Z) (recs : list A) (p : A) :
  0 <= H ->
  prune_history H (drop (length recs - Z.to_nat H) recs ++ [p])
  = drop (length (recs ++ [p]) - Z.to_nat H) (recs ++ [p]).
Proof.
  intros HH. rewrite prune_history_drop by done.
  rewrite !length_app, length_drop. simpl.
  destruct (decide (Z.to_nat H = 0%nat)) as [H0|Hpos].
  - rewrite H0, !Nat.sub_0_r, !drop_ge; [done| |];
      rewrite ?length_app, ?length_drop; simpl; lia.
  - rewrite !drop_app_le by (rewrite ?length_drop; lia).
    rewrite drop_drop. f_equal. f_equal. lia.
Qed.

Lemma records_of_snoc d recs p :
  records_of d (recs ++ [p])
  = records_of d recs ++ (if decide (key_of p = d) then [p] else []).
Proof.
  unfold records_of. by rewrite filter_app.
Qed.

Lemma history_of_initial d start : history_of d (initial start) = [].
Proof. unfold history_of. simpl. by rewrite lookup_empty. Qed.

(** The history array of a device is the longest suffix, of at most
    [historyPoints] records, of what the server accepted for it. *)
Lemma history_of_run cfg start evs d :
  0 <= historyPoints cfg ->
  let recs := records_of d (accepted_records cfg evs) in
  history_of d (run cfg (initial start) evs)
  = drop (length recs - Z.to_nat (historyPoints cfg)) recs.
Proof.
  intros HH. simpl. revert d.
  apply (run_accepted_ind cfg start (fun recs st => ∀ d,
    history_of d st
    = drop (length (records_of d recs) - Z.to_nat (historyPoints cfg))
           (records_of d recs))).
  - intros d. by rewrite history_of_initial.
  - intros recs st ev p IH Hacc d.
    destruct (step_accepted cfg st ev p Hacc) as (_ & Hh & _).
    rewrite records_of_snoc. unfold history_of at 1. rewrite Hh.
    destruct (decide (key_of p = d)) as [<-|Hne].
    + rewrite lookup_insert_eq. simpl. rewrite IH.
      by apply prune_history_push.
    + rewrite lookup_insert_ne by done. rewrite app_nil_r. apply IH.
  - intros recs st ev IH Hacc d.
    destruct (step_not_accepted cfg st ev Hacc) as (_ & Hh & _).
    unfold history_of at 1. rewrite Hh. apply IH.
Qed.

(** C1. For every device, after any run in which the server accepted N
    records for it under a bound [historyPoints] = H (a length, so not
    negative), the history array of the device has length min(N, H), it is
    the most recent min(N, H) of those records in arrival order, and its
    length never exceeds H. *)
Theorem bounded_history cfg start evs d :
  0 <= historyPoints cfg ->
  let recs := records_of d (accepted_records cfg evs) in
  let history := history_of d (run cfg (initial start) evs) in
  let N := Z.of_nat (length recs) in
  let H := historyPoints cfg in
  Z.of_nat (length history) = Z.min N H
  ∧ history = drop (Z.to_nat (N - Z.min N H)) recs
  ∧ Z.of_nat (length history) <= H.
Proof.
  intros HH recs history N H. subst history.
  rewrite (history_of_run cfg start evs d HH). fold recs.
  rewrite length_drop. subst N H. repeat split; [lia| |lia].
  f_equal. lia.
Qed.

(** ** Latest position and history agree *)

Lemma records_of_key d recs p : p ∈ records_of d recs -> key_of p = d.
Proof. unfold records_of. rewrite list_elem_of_filter. by intros [? _]. Qed.

Lemma last_records_of_key d recs p :
  last (records_of d recs) = Some p -> key_of p = d.
Proof.
  intros Hl. apply (records_of_key d recs).
  apply last_Some in Hl as [l' ->]. set_solver.
Qed.

(** The latest position of a device is the last record accepted for it. *)
Lemma devicePositions_run cfg start evs d :
  devicePositions (run cfg (initial start) evs) !! d
  = last (records_of d (accepted_records cfg evs)).
Proof.
  revert d.
  apply (run_accepted_ind cfg start (fun recs st => ∀ d,
    devicePositions st !! d = last (records_of d recs))).
  - done.
  - intros recs st ev p IH Hacc d.
    destruct (step_accepted cfg st ev p Hacc) as (Hp & _).
    rewrite Hp, records_of_snoc.
    destruct (decide (key_of p = d)) as [<-|Hne].
    + by rewrite lookup_insert_eq, last_snoc.
    + rewrite lookup_insert_ne by done. by rewrite app_nil_r.
  - intros recs st ev IH Hacc d.
    destruct (step_not_accepted cfg st ev Hacc) as (Hp & _).
    by rewrite Hp.
Qed.

Lemma last_drop_lt {A} (l : list A) (n : nat) :
  (n < length l)%nat -> last (drop n l) = last l.
Proof.
  intros Hn. rewrite <- (take_drop n l) at 2.
  rewrite last_app. destruct (last (drop n l)) eqn:Hl; [done|].
  apply last_None in Hl. apply (f_equal length) in Hl.
  rewrite length_drop in Hl. simpl in Hl. lia.
Qed.

(** C9. In every state the server reaches, for a positive history bound,
    the latest position kept for a device in [devicePositions] is the last
    element of its array in [deviceHistory], and the device has an entry in
    [devicePositions] exactly when its history array exists and is not
    empty. *)
Theorem latest_is_last_of_history cfg start evs d :
  0 < historyPoints cfg ->
  let st := run cfg (initial start) evs in
  devicePositions st !! d = last (history_of d st)
  ∧ (is_Some (devicePositions st !! d)
     <-> ∃ history, deviceHistory st !! d = Some history ∧ history ≠ []).
Proof.
  intros HH st. subst st.
  assert (Hlast : devicePositions (run cfg (initial start) evs) !! d
                  = last (history_of d (run cfg (initial start) evs))).
  { rewrite devicePositions_run, history_of_run by lia. simpl.
    destruct (records_of d (accepted_records cfg evs)) as [|r recs] eqn:Hr;
      [done|].
    symmetry. apply last_drop_lt. simpl. lia. }
  split; [done|]. rewrite Hlast. unfold history_of. split.
  - intros [p Hp]. destruct (deviceHistory _ !! d) as [h|]; [|done].
    exists h. split; [done|]. intros ->. done.
  - intros (h & -> & Hne). simpl. destruct (last h) eqn:Hl; [by eauto|].
    by apply last_None in Hl.
Qed.

(** ** Snapshot *)

Lemma dom_devicePositions_run cfg start evs :
  dom (devicePositions (run cfg (initial start) evs))
  = list_to_set (key_of <$> accepted_records cfg evs).
Proof.
  apply set_eq. intros d.
  rewrite elem_of_dom, devicePositions_run, elem_of_list_to_set,
    list_elem_of_fmap.
  split.
  - intros [p Hp]. exists p. split.
    + symmetry. by eapply last_records_of_key.
    + apply last_Some in Hp as [l' Hp].
      assert (Hin : p ∈ records_of d (accepted_records cfg evs))
        by (rewrite Hp; set_solver).
      unfold records_of in Hin. by apply list_elem_of_filter in Hin as [_ ?].
  - intros (p & -> & Hin).
    destruct (last (records_of (key_of p) (accepted_records cfg evs))) eqn:Hl;
      [by eauto|].
    apply last_None in Hl.
    assert (Hp : p ∈ records_of (key_of p) (accepted_records cfg evs))
      by (unfold records_of; by apply list_elem_of_filter).
    rewrite Hl in Hp. by apply elem_of_nil in Hp.
Qed.

(** C2. After any run, with K the number of distinct devices for which a
    record was accepted, every device's entry in [devicePositions] is the
    record most recently accepted for it, whatever other devices' updates
    came in between, and the body of GET /api/positions has count K and
    lists K positions, one per device, each the latest of its device. *)
Theorem snapshot_complete cfg start evs :
  let st := run cfg (initial start) evs in
  let recs := accepted_records cfg evs in
  let K := size (list_to_set (key_of <$> recs) : gset JsValue) in
  (∀ d, devicePositions st !! d = last (records_of d recs))
  ∧ ∃ devices,
      get_positions st = {| status := 200; json := JsonPositions K devices |}
      ∧ length devices = K
      ∧ NoDup (key_of <$> devices)
      ∧ ∀ p, p ∈ devices <-> last (records_of (key_of p) recs) = Some p.
Proof.
  intros st recs K. subst st recs K.
  split; [intros d; apply devicePositions_run|].
  set (m := devicePositions (run cfg (initial start) evs)).
  assert (Hkey : ∀ d p, m !! d = Some p -> key_of p = d).
  { intros d p. unfold m. rewrite devicePositions_run.
    apply last_records_of_key. }
  assert (Hlen : length (map_to_list m).*2
                 = size (list_to_set (key_of <$> accepted_records cfg evs)
                         : gset JsValue)).
  { rewrite length_fmap, length_map_to_list.
    rewrite <- (dom_devicePositions_run cfg start). fold m.
    by rewrite size_dom. }
  assert (Hkeys : key_of <$> (map_to_list m).*2 = (map_to_list m).*1).
  { rewrite <- list_fmap_compose. apply Forall_fmap_ext_1.
    apply Forall_forall. intros [d p] Hin.
    apply elem_of_map_to_list in Hin. simpl. by apply Hkey. }
  exists (map_to_list m).*2.
  split; [|split; [|split]].
  - unfold get_positions. fold m. by rewrite Hlen.
  - done.
  - rewrite Hkeys. apply NoDup_fst_map_to_list.
  - intros p. rewrite <- (devicePositions_run cfg start). fold m.
    rewrite list_elem_of_fmap. split.
    + intros ([d p'] & -> & Hin). apply elem_of_map_to_list in Hin. simpl.
      by rewrite (Hkey d p' Hin).
    + intros Hp. exists (key_of p, p). split; [done|].
      by apply elem_of_map_to_list.
Qed.

(** ** Ingestion counters *)

(** [totalPositions] counts the accepted records; [totalDevices] is tested
    after [devicePositions.set], when the device is always known, and stays
    at its initial value. *)
Lemma counters_run cfg start evs :
  let st := run cfg (initial start) evs in
  totalPositions (serverStats st)
  = Z.of_nat (length (accepted_records cfg evs))
  ∧ totalDevices (serverStats st) = 0.
Proof.
  simpl.
  apply (run_accepted_ind cfg start (fun recs st =>
    totalPositions (serverStats st) = Z.of_nat (length recs)
    ∧ totalDevices (serverStats st) = 0)).
  - done.
  - intros recs st ev p [IHp IHd] Hacc.
    destruct (step_accepted cfg st ev p Hacc) as (_ & _ & Hs).
    rewrite Hs, length_app. simpl. split; [lia|done].
  - intros recs st ev [IHp IHd] Hacc.
    destruct (step_not_accepted cfg st ev Hacc) as (_ & _ & Hd & Hp).
    by rewrite Hd, Hp.
Qed.

(** C7. After the first record of a first device is accepted, GET /api/stats
    reports totalPositions = 1 and totalDevices = 0: the device counter is
    not incremented for the previously unseen device. *)
Theorem stats_after_first_record :
  get_stats sample_config
    (run sample_config (initial 0) [MqttMessage 1640995200000 new_york])
  = {| status := 200; json := JsonStats 0 1 0 2 60 |}.
Proof. vm_compute. reflexivity. Qed.

(** ** The guard and the coercions *)

Lemma missing_required_false data :
  missing_required data = false
  <-> truthy (prop data "device_id") = true
      ∧ truthy (prop data "lat") = true
      ∧ truthy (prop data "lng") = true.
Proof.
  unfold missing_required.
  destruct (truthy (prop data "device_id")), (truthy (prop data "lat")),
    (truthy (prop data "lng")); simpl; intuition congruence.
Qed.

Lemma missing_required_undefined data :
  prop data "device_id" = JUndefined
  ∨ prop data "lat" = JUndefined
  ∨ prop data "lng" = JUndefined ->
  missing_required data = true.
Proof.
  unfold missing_required. intros [-> | [-> | ->]]; simpl;
    [done | by rewrite orb_true_r | by rewrite orb_true_r].
Qed.








(** ** The track route *)

Lemma map_key_string v s : map_key v = JStr s -> v = JStr s.
Proof.
  destruct v as [| | |n|]; simpl; try done.
  by destruct (normalize n).
Qed.

(** [token !== config.deviceToken] holds exactly when the token is not the
    configured string. *)
Lemma strict_equals_string v s :
  strict_equals v (JStr s) = true <-> v = JStr s.
Proof.
  split.
  - unfold strict_equals. intros Hs.
    assert (Hk : map_key v = map_key (JStr s)).
    { destruct v as [| | |[]|]; try done; by apply bool_decide_eq_true in Hs. }
    by apply map_key_string in Hk.
  - intros ->. unfold strict_equals. by apply bool_decide_eq_true.
Qed.

Lemma post_track_missing cfg now req st :
  missing_required (body req) = true ->
  post_track cfg now req st
  = (st, {| status := 400;
            json := JsonError "Missing required fields: device_id, lat, lng" |}).
Proof. intros Hm. unfold post_track. by rewrite Hm. Qed.

Lemma post_track_invalid_token cfg now req st :
  missing_required (body req) = false ->
  supplied_token req ≠ JStr (deviceToken cfg) ->
  post_track cfg now req st
  = (st, {| status := 401; json := JsonError "Invalid device token" |}).
Proof.
  intros Hm Htok. unfold post_track. rewrite Hm.
  destruct (strict_equals _ _) eqn:Hs; [|done].
  by apply strict_equals_string in Hs.
Qed.

Lemma post_track_status cfg now req st :
  let r := post_track cfg now req st in
  (status r.2 = 400 ∧ missing_required (body req) = true ∧ r.1 = st)
  ∨ (status r.2 = 401 ∧ missing_required (body req) = false ∧ r.1 = st)
  ∨ (status r.2 = 200 ∧ missing_required (body req) = false).
Proof.
  unfold post_track. destruct (missing_required (body req)); simpl; [by left|].
  destruct (negb _); simpl; right; [by left|by right].
Qed.

(** For a POST /api/track request whose [device_id], [lat] and [lng] each
    pass the handler's presence test (are truthy), if the supplied token,
    the X-Device-Token header or else the [token] query parameter, is absent
    or is not the configured secret, the response is HTTP 401 with
    [{success: false, error: "Invalid device token"}] and the state is the
    one before the request: latest positions and histories are unchanged and
    no socket has been sent anything.  Whatever the body, a request with
    such a token is turned down (400 or 401) with the state unchanged. *)
Theorem invalid_token_rejected cfg now req st :
  supplied_token req = JUndefined
  ∨ supplied_token req ≠ JStr (deviceToken cfg) ->
  let r := post_track cfg now req st in
  (truthy (prop (body req) "device_id") = true ->
   truthy (prop (body req) "lat") = true ->
   truthy (prop (body req) "lng") = true ->
   r.2 = {| status := 401; json := JsonError "Invalid device token" |})
  ∧ (status r.2 = 400 ∨ status r.2 = 401)
  ∧ r.1 = st
  ∧ devicePositions r.1 = devicePositions st
  ∧ deviceHistory r.1 = deviceHistory st
  ∧ sockets r.1 = sockets st.
Proof.
  intros Htok r. subst r.
  assert (Hne : supplied_token req ≠ JStr (deviceToken cfg))
    by (destruct Htok as [-> | ?]; done).
  destruct (missing_required (body req)) eqn:Hm.
  - rewrite post_track_missing by done. simpl. split; [|by auto].
    intros Hd Hlat Hlng.
    assert (missing_required (body req) = false)
      by by apply missing_required_false.
    congruence.
  - rewrite post_track_invalid_token by done. simpl. by auto 10.
Qed.

(** C5. The body [{device_id: "D1", lat: 0, lng: -74.0060}] contains
    [device_id], [lat] and [lng], and the request carries a token that is
    not the configured secret.  The response is HTTP 400 with the
    missing-fields error, not HTTP 401 with "Invalid device token": the
    presence test [!lat] takes the latitude 0 for a missing field, and it
    runs before the token check.  The state is unchanged. *)
Theorem zero_lat_wrong_token_answer :
  prop (body zero_lat_request) "device_id" = JStr "D1"
  ∧ prop (body zero_lat_request) "lat" = JNum (Zero false)
  ∧ prop (body zero_lat_request) "lng" = JNum (Dec true 740060 (-4))
  ∧ supplied_token zero_lat_request = JStr "guess"
  ∧ deviceToken sample_config = "test_token_123"%string
  ∧ post_track sample_config 7 zero_lat_request two_sockets
    = (two_sockets,
       {| status := 400;
          json := JsonError "Missing required fields: device_id, lat, lng" |})
  ∧ status (post_track sample_config 7 zero_lat_request two_sockets).2 ≠ 401.
Proof.
  assert (Hmissing : missing_required (body zero_lat_request) = true)
    by reflexivity.
  rewrite (post_track_missing sample_config 7 zero_lat_request two_sockets)
    by exact Hmissing.
  repeat split; try reflexivity. simpl. lia.
Qed.

(** C10. The required-field check of POST /api/track comes before the token
    check.  A request whose body lacks [device_id], [lat] or [lng] gets HTTP
    400 with the missing-fields error whatever its token; a 401 response
    occurs only for a body that has all three; and either rejection leaves
    the state as it was. *)
Theorem required_fields_before_token cfg now req st :
  let r := post_track cfg now req st in
  (prop (body req) "device_id" = JUndefined
   ∨ prop (body req) "lat" = JUndefined
   ∨ prop (body req) "lng" = JUndefined ->
   r.2 = {| status := 400;
            json := JsonError "Missing required fields: device_id, lat, lng" |})
  ∧ (status r.2 = 401 ->
     prop (body req) "device_id" ≠ JUndefined
     ∧ prop (body req) "lat" ≠ JUndefined
     ∧ prop (body req) "lng" ≠ JUndefined)
  ∧ (status r.2 = 400 ∨ status r.2 = 401 -> r.1 = st).
Proof.
  intros r. subst r. split; [|split].
  - intros Hm. apply missing_required_undefined in Hm.
    by rewrite post_track_missing.
  - intros H401.
    destruct (post_track_status cfg now req st)
      as [(H4 & _) | [(_ & Hm & _) | (H2 & _)]]; simpl in *; [lia| |lia].
    apply missing_required_false in Hm as (Hd & Hlat & Hlng).
    repeat split; intros Hu; rewrite Hu in *; done.
  - intros Hs.
    destruct (post_track_status cfg now req st)
      as [(_ & _ & ?) | [(_ & _ & ?) | (H2 & _)]]; simpl in *; [done|done|lia].
Qed.

(** ** Fan-out *)

Lemma send_if_open_other message h ws ws' :
  ws ≠ ws' -> send_if_open message h ws !! ws' = h !! ws'.
Proof.
  intros Hne. unfold send_if_open.
  destruct (h !! ws) as [s|]; [|done].
  case_bool_decide; [|done]. by rewrite lookup_insert_ne.
Qed.

Lemma send_if_open_same message h ws :
  send_if_open message h ws !! ws
  = (fun s => if bool_decide (readyState s = OPEN)
              then ws_send message s else s) <$> h !! ws.
Proof.
  unfold send_if_open. destruct (h !! ws) as [s|] eqn:Hs; simpl; [|done].
  case_bool_decide; [by rewrite lookup_insert_eq|done].
Qed.

Lemma foldl_send_if_open_notin message l h ws :
  ws ∉ l -> foldl (send_if_open message) h l !! ws = h !! ws.
Proof.
  revert h. induction l as [|ws' l IH]; intros h Hin; [done|].
  apply not_elem_of_cons in Hin as [Hne Hin]. simpl.
  rewrite IH by done. by apply send_if_open_other.
Qed.

(** [wsClients.forEach] visits every registered socket once. *)
Lemma foldl_send_if_open_in message l h ws :
  NoDup l -> ws ∈ l ->
  foldl (send_if_open message) h l !! ws
  = (fun s => if bool_decide (readyState s = OPEN)
              then ws_send message s else s) <$> h !! ws.
Proof.
  revert h. induction l as [|ws' l IH]; intros h Hnd Hin.
  { by apply elem_of_nil in Hin. }
  apply NoDup_cons in Hnd as [Hnotin Hnd]. simpl.
  destruct (decide (ws = ws')) as [->|Hne].
  - rewrite foldl_send_if_open_notin by done. apply send_if_open_same.
  - apply elem_of_cons in Hin as [?|Hin]; [done|].
    rewrite IH by done. by rewrite send_if_open_other.
Qed.

Lemma broadcastUpdate_sockets position st ws :
  foldl (send_if_open (MsgUpdate position)) (sockets st)
        (elements (wsClients st)) !! ws
  = (fun s => if bool_decide (ws ∈ wsClients st ∧ readyState s = OPEN)
              then ws_send (MsgUpdate position) s else s) <$> sockets st !! ws.
Proof.
  destruct (decide (ws ∈ wsClients st)) as [Hin|Hin].
  - rewrite foldl_send_if_open_in;
      [|apply NoDup_elements|by apply elem_of_elements].
    destruct (sockets st !! ws) as [s|]; [|done]. simpl. f_equal.
    destruct (decide (readyState s = OPEN)) as [Ho|Ho].
    + by rewrite !bool_decide_eq_true_2.
    + rewrite !bool_decide_eq_false_2; [done|tauto|done].
  - rewrite foldl_send_if_open_notin by (by rewrite elem_of_elements).
    destruct (sockets st !! ws) as [s|]; [|done]. simpl.
    by rewrite bool_decide_eq_false_2 by tauto.
Qed.

Lemma on_connection_socket st :
  let ws := fresh (dom (sockets st)) in
  let currentPositions := (map_to_list (devicePositions st)).*2 in
  sockets st !! ws = None
  ∧ ws ∈ wsClients (on_connection st)
  ∧ sockets (on_connection st) !! ws
    = Some {| readyState := OPEN;
              sent := match currentPositions with
                      | [] => []
                      | _ => [MsgSnapshot currentPositions]
                      end |}.
Proof.
  intros ws cur. split; [|split].
  - apply not_elem_of_dom. apply is_fresh.
  - unfold on_connection. fold ws. simpl. fold cur.
    destruct (0 <? Z.of_nat (length cur)); simpl; set_solver.
  - unfold on_connection. fold ws. simpl. fold cur.
    destruct cur as [|p cur']; simpl; [by rewrite lookup_insert_eq|].
    by rewrite lookup_alter_eq, lookup_insert_eq.
Qed.

(** C4. When a record is accepted, every socket that is registered in
    [wsClients] and open at that moment is sent exactly one message, the
    update carrying that record, and no other socket is sent anything: in
    particular a socket removed from the registry before the publish gets
    nothing.  A socket that connects afterwards starts with the snapshot of
    the latest positions as its only message when at least one device is
    known, and with nothing otherwise; no earlier update is replayed. *)
Theorem broadcast_fan_out cfg now data st :
  missing_required data = false ->
  let p := make_position now data in
  let st' := processLocationUpdate cfg now data st in
  (∀ ws s, sockets st !! ws = Some s ->
     sockets st' !! ws
     = Some (if bool_decide (ws ∈ wsClients st ∧ readyState s = OPEN)
             then {| readyState := readyState s;
                     sent := sent s ++ [MsgUpdate p] |}
             else s))
  ∧ (∀ ws, sockets st !! ws = None -> sockets st' !! ws = None)
  ∧ (∀ ws, sockets (processLocationUpdate cfg now data (on_close ws st)) !! ws
           = sockets st !! ws)
  ∧ (∀ st1, let ws := fresh (dom (sockets st1)) in
            let currentPositions := (map_to_list (devicePositions st1)).*2 in
            sockets st1 !! ws = None
            ∧ sockets (on_connection st1) !! ws
              = Some {| readyState := OPEN;
                        sent := match currentPositions with
                                | [] => []
                                | _ => [MsgSnapshot currentPositions]
                                end |}).
Proof.
  intros Hm p st'. subst p st'. split; [|split; [|split]].
  - intros ws s Hs. rewrite processLocationUpdate_sockets by done.
    by rewrite broadcastUpdate_sockets, Hs.
  - intros ws Hs. rewrite processLocationUpdate_sockets by done.
    by rewrite broadcastUpdate_sockets, Hs.
  - intros ws. rewrite processLocationUpdate_sockets by done.
    rewrite broadcastUpdate_sockets. simpl.
    destruct (sockets st !! ws) as [s|]; [|done]. simpl.
    rewrite bool_decide_eq_false_2; [done|]. intros [Hin _].
    apply elem_of_difference in Hin as [_ Hn]. by apply Hn, elem_of_singleton.
  - intros st1 ws cur. pose proof (on_connection_socket st1) as (? & _ & ?).
    done.
Qed.

(** ** Pruning of the positions table *)

Lemma filter_ext_in {A} (P1 P2 : A -> Prop)
    `{!∀ x, Decision (P1 x), !∀ x, Decision (P2 x)} (l : list A) :
  (∀ x, x ∈ l -> P1 x <-> P2 x) -> filter P1 l = filter P2 l.
Proof.
  induction l as [|a l IH]; intros Hiff; [done|].
  assert (Hl : filter P1 l = filter P2 l).
  { apply IH. intros x Hx. apply Hiff. by right. }
  assert (Ha : P1 a <-> P2 a) by (apply Hiff; by left).
  rewrite !filter_cons, Hl.
  destruct (decide (P1 a)), (decide (P2 a)); tauto.
Qed.

Lemma filter_all {A} (P : A -> Prop) `{!∀ x, Decision (P x)} (l : list A) :
  (∀ x, x ∈ l -> P x) -> filter P l = l.
Proof.
  induction l as [|a l IH]; intros Hall; [done|].
  rewrite filter_cons_True by (apply Hall; by left).
  f_equal. apply IH. intros x Hx. apply Hall. by right.
Qed.

Lemma filter_none {A} (P : A -> Prop) `{!∀ x, Decision (P x)} (l : list A) :
  (∀ x, x ∈ l -> ¬ P x) -> filter P l = [].
Proof.
  induction l as [|a l IH]; intros Hall; [done|].
  rewrite filter_cons_False by (apply Hall; by left).
  apply IH. intros x Hx. apply Hall. by right.
Qed.

Section pruning.
Import Sqlite.

#[local] Instance timestamp_desc_trans : Transitive timestamp_desc.
Proof. unfold timestamp_desc. intros a b c ??. lia. Qed.

(** [LIMIT] yields a prefix. *)
Lemma limit_take {A} (n : Z) (l : list A) :
  limit n l = take (if n <? 0 then length l else Z.to_nat n) l.
Proof. unfold limit. destruct (n <? 0); [by rewrite firstn_all|done]. Qed.

Lemma length_limit {A} (n : Z) (l : list A) :
  0 <= n -> Z.of_nat (length (limit n l)) = Z.min (Z.of_nat (length l)) n.
Proof.
  intros Hn. unfold limit. destruct (Z.ltb_spec n 0); [lia|].
  rewrite length_take. lia.
Qed.

Lemma limit_all {A} (n : Z) (l : list A) :
  n < 0 ∨ Z.of_nat (length l) <= n -> limit n l = l.
Proof.
  intros Hn. unfold limit. destruct (Z.ltb_spec n 0); [done|].
  apply take_ge. lia.
Qed.

(** Rows are identified by their primary key. *)
Lemma row_by_id (t : list Row) r r' :
  NoDup (id <$> t) -> r ∈ t -> r' ∈ t -> id r = id r' -> r = r'.
Proof.
  induction t as [|a t IH]; intros Hnd Hr Hr' Hid.
  { by apply elem_of_nil in Hr. }
  rewrite fmap_cons in Hnd. apply NoDup_cons in Hnd as [Ha Hnd].
  apply elem_of_cons in Hr as [->|Hr], Hr' as [->|Hr']; [done|..].
  - exfalso. apply Ha. rewrite Hid. by apply list_elem_of_fmap_2.
  - exfalso. apply Ha. rewrite <- Hid. by apply list_elem_of_fmap_2.
  - by apply IH.
Qed.

(** Selecting by the ids of a prefix of a duplicate-free scan gives the
    prefix back. *)
Lemma filter_ids_take (scan : list Row) (k : nat) :
  NoDup (id <$> scan) ->
  filter (fun r => id r ∈ id <$> take k scan) scan = take k scan.
Proof.
  intros Hnd.
  rewrite <- (take_drop k scan), fmap_app in Hnd.
  apply NoDup_app in Hnd as (_ & Hdis & _).
  set (P := fun r => id r ∈ id <$> take k scan).
  transitivity (filter P (take k scan ++ drop k scan));
    [by rewrite take_drop|].
  rewrite filter_app.
  rewrite filter_all by (intros; by apply list_elem_of_fmap_2).
  rewrite filter_none; [by rewrite app_nil_r|].
  intros r Hr Hid. apply (Hdis (id r) Hid). by apply list_elem_of_fmap_2.
Qed.

Lemma where_device_cleanup d lim scan t :
  where_device d (cleanup d lim scan t)
  = filter (fun r => id r ∈ id <$> limit lim scan) (where_device d t).
Proof.
  unfold where_device, cleanup. rewrite !list_filter_filter.
  apply list_filter_iff. intros r. split.
  - intros [Hd Hk]. split; [|done].
    destruct (decide (id r ∈ id <$> limit lim scan)); [done|tauto].
  - intros [Hin Hd]. split; [done|]. tauto.
Qed.

(** Rows of other devices are never deleted. *)
Lemma cleanup_other_devices d lim scan t :
  filter (fun r => device_id r ≠ d) (cleanup d lim scan t)
  = filter (fun r => device_id r ≠ d) t.
Proof.
  unfold cleanup. rewrite list_filter_filter.
  apply list_filter_iff. intros r. tauto.
Qed.

(** When the inner SELECT yields every row of the device, nothing is
    deleted. *)
Lemma cleanup_noop d lim scan t :
  scan ≡ₚ where_device d t -> limit lim scan = scan ->
  cleanup d lim scan t = t.
Proof.
  intros Hperm Hlim. unfold cleanup. apply filter_all.
  intros r Hr [Hd Hid]. apply Hid. rewrite Hlim.
  apply list_elem_of_fmap_2. rewrite Hperm.
  unfold where_device. by apply list_elem_of_filter.
Qed.

(** The rows of the device left in the table are the first [lim] rows of
    the scan. *)
Lemma cleanup_kept d lim scan t :
  NoDup (id <$> t) ->
  order_by_timestamp_desc (where_device d t) scan ->
  where_device d (cleanup d lim scan t) ≡ₚ limit lim scan.
Proof.
  intros Hnd [Hperm _]. rewrite where_device_cleanup.
  rewrite <- Hperm. rewrite limit_take. rewrite filter_ids_take; [done|].
  rewrite Hperm. unfold where_device.
  apply (sublist_NoDup _ (id <$> t)); [done|].
  apply fmap_sublist, sublist_filter.
Qed.

(** A kept row is at least as recent as a deleted one. *)
Lemma cleanup_keeps_most_recent d lim scan t r r' :
  NoDup (id <$> t) ->
  order_by_timestamp_desc (where_device d t) scan ->
  r ∈ where_device d (cleanup d lim scan t) ->
  r' ∈ where_device d t -> r' ∉ cleanup d lim scan t ->
  timestamp r' <= timestamp r.
Proof.
  intros Hnd Hord Hr Hr' Hdel.
  pose proof (cleanup_kept d lim scan t Hnd Hord) as Hkept.
  destruct Hord as [Hperm Hsorted].
  rewrite Hkept, limit_take in Hr.
  set (k := if lim <? 0 then length scan else Z.to_nat lim) in *.
  assert (Hdrop : r' ∈ drop k scan).
  { assert (Hin : r' ∈ take k scan ++ drop k scan)
      by (by rewrite take_drop, Hperm).
    apply elem_of_app in Hin as [Hin|Hin]; [|done].
    exfalso. apply Hdel. unfold cleanup. apply list_elem_of_filter.
    unfold where_device in Hr'. apply list_elem_of_filter in Hr' as [_ Hr'].
    split; [|done]. intros [_ Hid]. apply Hid.
    rewrite limit_take. by apply list_elem_of_fmap_2. }
  apply Sorted_StronglySorted in Hsorted; [|apply _].
  rewrite <- (take_drop k scan) in Hsorted.
  exact (StronglySorted_app_1_elem_of _ _ _ _ _ Hsorted Hr Hdrop).
Qed.

Lemma Sorted_weaken {A} (R R' : relation A) (l : list A) :
  (∀ x y, R x y -> R' x y) -> Sorted R l -> Sorted R' l.
Proof.
  intros Himp. induction 1 as [|x l _ IH Hhd]; constructor; [done|].
  destruct Hhd; constructor; auto.
Qed.

#[local] Instance newest_id_first_total : Total newest_id_first.
Proof. intros a b. unfold newest_id_first. lia. Qed.

#[local] Instance oldest_id_first_total : Total oldest_id_first.
Proof. intros a b. unfold oldest_id_first. lia. Qed.

(** Both engines satisfy the ORDER BY clause. *)
Lemma scan_newest_id_first_ordered rows :
  order_by_timestamp_desc rows (scan_newest_id_first rows).
Proof.
  split; [apply merge_sort_Permutation|].
  apply (Sorted_weaken newest_id_first);
    [|unfold scan_newest_id_first; apply Sorted_merge_sort, _].
  unfold newest_id_first, timestamp_desc. intros a b. lia.
Qed.

Lemma scan_oldest_id_first_ordered rows :
  order_by_timestamp_desc rows (scan_oldest_id_first rows).
Proof.
  split; [apply merge_sort_Permutation|].
  apply (Sorted_weaken oldest_id_first);
    [|unfold scan_oldest_id_first; apply Sorted_merge_sort, _].
  unfold oldest_id_first, timestamp_desc. intros a b. lia.
Qed.

(** The statement always has an outcome, and the pruning the
    specification describes is one of them. *)
Lemma prune_spec_is_a_result d lim t :
  cleanup_result d d lim t (prune_spec d lim t).
Proof. constructor. apply scan_newest_id_first_ordered. Qed.

End pruning.

(** C8 (counterexample). Two rows of D1 carry the same timestamp and the
    bound is 1.  Yielding row 1 before row 2 satisfies ORDER BY timestamp
    DESC, and with that order the statement keeps row 1 and deletes row 2,
    the newer row id; deleting the oldest row id first would leave row 2. *)
Lemma tied_rows_oldest_id_kept :
  Sqlite.order_by_timestamp_desc
    (Sqlite.where_device "D1" tied_rows) [row 1 "D1" 100; row 2 "D1" 100]
  ∧ Sqlite.cleanup "D1" 1 [row 1 "D1" 100; row 2 "D1" 100] tied_rows
    = [row 1 "D1" 100]
  ∧ Sqlite.cleanup_result "D1" "D1" 1 tied_rows [row 1 "D1" 100]
  ∧ Sqlite.prune_spec "D1" 1 tied_rows = [row 2 "D1" 100]
  ∧ [row 1 "D1" 100] ≠ Sqlite.prune_spec "D1" 1 tied_rows.
Proof.
  assert (Hord : Sqlite.order_by_timestamp_desc
                   (Sqlite.where_device "D1" tied_rows)
                   [row 1 "D1" 100; row 2 "D1" 100]).
  { split; [done|].
    repeat constructor; unfold Sqlite.timestamp_desc; simpl; lia. }
  split; [done|]. split; [by vm_compute|]. split; [|split].
  - change [row 1 "D1" 100]
      with (Sqlite.cleanup "D1" 1 [row 1 "D1" 100; row 2 "D1" 100] tied_rows).
    by constructor.
  - by vm_compute.
  - by vm_compute.
Qed.

(** C8 (amended). On a table with unique row ids, whatever order the engine
    gives rows of equal timestamp, [cleanupSQL] leaves for the device
    min(n, historyPoints) of its n rows, so exactly historyPoints when there
    were more; every row it keeps is at least as recent as every row it
    deletes; it deletes rows of that device only; it deletes nothing when
    the device has at most historyPoints rows; and running it again on its
    own result deletes nothing.  Which of the rows tied on the timestamp at
    the boundary are kept is not fixed. *)
Theorem cleanup_keeps_most_recent_rows d lim t t' :
  NoDup (Sqlite.id <$> t) ->
  Sqlite.cleanup_result d d lim t t' ->
  let rows := Sqlite.where_device d t in
  let kept := Sqlite.where_device d t' in
  (0 <= lim -> Z.of_nat (length kept) = Z.min (Z.of_nat (length rows)) lim)
  ∧ (∀ r r', r ∈ kept -> r' ∈ rows -> r' ∉ t' ->
       Sqlite.timestamp r' <= Sqlite.timestamp r)
  ∧ t' `sublist_of` t
  ∧ filter (fun r => Sqlite.device_id r ≠ d) t'
    = filter (fun r => Sqlite.device_id r ≠ d) t
  ∧ (Z.of_nat (length rows) <= lim -> t' = t)
  ∧ (∀ t'', Sqlite.cleanup_result d d lim t' t'' -> t'' = t').
Proof.
  intros Hnd [scan Hord] rows kept. subst rows kept.
  pose proof (cleanup_kept d lim scan t Hnd Hord) as Hkept.
  assert (Hlen : length scan = length (Sqlite.where_device d t))
    by (destruct Hord as [Hperm _]; by rewrite Hperm).
  split; [|split; [|split; [|split; [|split]]]].
  - intros Hlim. rewrite Hkept, length_limit by done. by rewrite Hlen.
  - intros r r'. by apply cleanup_keeps_most_recent.
  - apply sublist_filter.
  - apply cleanup_other_devices.
  - intros Hle. destruct Hord as [Hperm _]. apply cleanup_noop; [done|].
    apply limit_all. right. by rewrite Hlen.
  - intros t'' [scan' Hord']. destruct Hord' as [Hperm' _].
    apply cleanup_noop; [done|]. apply limit_all.
    destruct (Z.ltb_spec lim 0) as [Hneg|Hpos]; [by left|right].
    rewrite Hperm', Hkept, length_limit by done. lia.
Qed.

(** ** Instances at sample inputs *)

Lemma bounded_history_witness :
  let evs := [MqttMessage 1 new_york; MqttMessage 2 dortmund;
              MqttMessage 3 new_york; MqttMessage 4 new_york] in
  let recs := records_of (JStr "D1") (accepted_records sample_config evs) in
  let history := history_of (JStr "D1") (run sample_config (initial 0) evs) in
  Z.of_nat (length history) = Z.min (Z.of_nat (length recs)) 2
  ∧ history = drop (Z.to_nat (Z.of_nat (length recs)
                              - Z.min (Z.of_nat (length recs)) 2)) recs
  ∧ Z.of_nat (length history) <= 2.
Proof.
  apply (bounded_history sample_config 0
           [MqttMessage 1 new_york; MqttMessage 2 dortmund;
            MqttMessage 3 new_york; MqttMessage 4 new_york] (JStr "D1")).
  simpl. lia.
Defined.

Lemma latest_is_last_of_history_witness :
  let st := run sample_config (initial 0)
              [MqttMessage 1 new_york; MqttMessage 2 dortmund;
               MqttMessage 3 new_york] in
  devicePositions st !! JStr "D1" = last (history_of (JStr "D1") st)
  ∧ (is_Some (devicePositions st !! JStr "D1")
     <-> ∃ history,
           deviceHistory st !! JStr "D1" = Some history ∧ history ≠ []).
Proof.
  apply (latest_is_last_of_history sample_config 0
           [MqttMessage 1 new_york; MqttMessage 2 dortmund;
            MqttMessage 3 new_york] (JStr "D1")).
  simpl. lia.
Defined.



Lemma broadcast_fan_out_witness :
  let p := make_position 7 new_york in
  let st' := processLocationUpdate sample_config 7 new_york two_sockets in
  sockets st' !! 1%nat = Some {| readyState := OPEN; sent := [MsgUpdate p] |}
  ∧ sockets st' !! 0%nat = Some {| readyState := OPEN; sent := [] |}.
Proof.
  destruct (broadcast_fan_out sample_config 7 new_york two_sockets eq_refl)
    as (Hsend & _).
  split.
  - exact (Hsend 1%nat {| readyState := OPEN; sent := [] |} eq_refl).
  - exact (Hsend 0%nat {| readyState := OPEN; sent := [] |} eq_refl).
Defined.

Lemma invalid_token_rejected_witness :
  post_track sample_config 7 wrong_token_request two_sockets
  = (two_sockets,
     {| status := 401; json := JsonError "Invalid device token" |})
  ∧ post_track sample_config 7 no_token_request two_sockets
    = (two_sockets,
       {| status := 401; json := JsonError "Invalid device token" |}).
Proof.
  assert (Hwrong : supplied_token wrong_token_request = JUndefined
                   ∨ supplied_token wrong_token_request
                     ≠ JStr (deviceToken sample_config))
    by (right; vm_compute; discriminate).
  assert (Hnone : supplied_token no_token_request = JUndefined
                  ∨ supplied_token no_token_request
                    ≠ JStr (deviceToken sample_config))
    by (left; reflexivity).
  destruct (invalid_token_rejected sample_config 7 wrong_token_request
              two_sockets Hwrong) as (Hr1 & _ & Hs1 & _).
  destruct (invalid_token_rejected sample_config 7 no_token_request
              two_sockets Hnone) as (Hr2 & _ & Hs2 & _).
  split; apply injective_projections; simpl; auto.
Defined.

Lemma required_fields_before_token_witness :
  (post_track sample_config 7 incomplete_request two_sockets).2
  = {| status := 400;
       json := JsonError "Missing required fields: device_id, lat, lng" |}
  ∧ (post_track sample_config 7 incomplete_request two_sockets).1
    = two_sockets
  ∧ prop (body wrong_token_request) "lat" ≠ JUndefined.
Proof.
  destruct (required_fields_before_token sample_config 7 incomplete_request
              two_sockets) as (H400 & _ & Hst).
  destruct (required_fields_before_token sample_config 7 wrong_token_request
              two_sockets) as (_ & H401 & _).
  split; [|split].
  - apply H400. left. reflexivity.
  - apply Hst. left. reflexivity.
  - apply H401. reflexivity.
Defined.

Lemma cleanup_keeps_most_recent_rows_witness :
  let t := [row 1 "D1" 100; row 2 "D2" 50; row 3 "D1" 300; row 4 "D1" 200] in
  let t' := Sqlite.prune_spec "D1" 2 t in
  Z.of_nat (length (Sqlite.where_device "D1" t')) = 2
  ∧ filter (fun r => Sqlite.device_id r ≠ "D1") t' = [row 2 "D2" 50]
  ∧ ∀ t'', Sqlite.cleanup_result "D1" "D1" 2 t' t'' -> t'' = t'.
Proof.
  intros t t'.
  assert (Hnd : NoDup (Sqlite.id <$> t))
    by (apply (bool_decide_unpack _); vm_compute; exact I).
  destruct (cleanup_keeps_most_recent_rows "D1" 2 t t' Hnd
              (prune_spec_is_a_result "D1" 2 t))
    as (Hlen & _ & _ & Hother & _ & Hidem).
  split; [|split].
  - rewrite Hlen by lia. reflexivity.
  - rewrite Hother. reflexivity.
  - exact Hidem.
Defined.

(** * Further properties of the server *)

(** ** The track route, all outcomes *)


(** X2. The header wins over the query parameter.  A non-empty
    X-Device-Token header that is not the secret gets the request turned
    down even when [?token=] carries the secret; the query parameter counts
    only when the header is absent or empty, and then authenticates a
    complete body. *)
Theorem header_before_query cfg now req st :
  (truthy (prop (headers req) "x-device-token") = true ->
   prop (headers req) "x-device-token" ≠ JStr (deviceToken cfg) ->
   status (post_track cfg now req st).2 ≠ 200
   ∧ (post_track cfg now req st).1 = st)
  ∧ (truthy (prop (headers req) "x-device-token") = false ->
     prop (query req) "token" = JStr (deviceToken cfg) ->
     missing_required (body req) = false ->
     status (post_track cfg now req st).2 = 200).
Proof.
  unfold post_track, supplied_token, js_or. split.
  - intros Ht Hne. rewrite Ht.
    destruct (missing_required (body req)); simpl; [split; [lia|done]|].
    destruct (strict_equals _ _) eqn:Hs; simpl; [|split; [lia|done]].
    by apply strict_equals_string in Hs.
  - intros Ht Hq Hm. rewrite Ht, Hm, Hq.
    assert (Hs : strict_equals (JStr (deviceToken cfg))
                   (JStr (deviceToken cfg)) = true)
      by by apply strict_equals_string.
    by rewrite Hs.
Qed.

(** ** Listing after an update *)

Lemma elem_of_listed st p :
  p ∈ listed st <-> ∃ k, devicePositions st !! k = Some p.
Proof.
  unfold listed. rewrite list_elem_of_fmap. split.
  - intros ([k q] & -> & Hin). exists k. by apply elem_of_map_to_list.
  - intros [k Hk]. exists (k, p). split; [done|].
    by apply elem_of_map_to_list.
Qed.

(** X3. Once a payload is accepted, GET /api/positions lists its record;
    the records listed for other devices are the ones listed before; and
    the count grows by one when the device was unknown and stays the same
    when it was known. *)
Theorem listing_after_update cfg now data st :
  missing_required data = false ->
  let p := make_position now data in
  let st' := processLocationUpdate cfg now data st in
  get_positions st'
  = {| status := 200; json := JsonPositions (length (listed st')) (listed st') |}
  ∧ p ∈ listed st'
  ∧ (∀ k q, k ≠ key_of p ->
       devicePositions st' !! k = Some q <-> devicePositions st !! k = Some q)
  ∧ length (listed st')
    = (match devicePositions st !! key_of p with
       | Some _ => length (listed st)
       | None => S (length (listed st))
       end).
Proof.
  intros Hm p st'. subst p st'.
  pose proof (processLocationUpdate_devicePositions cfg now data st Hm) as Hp.
  simpl in Hp. split; [done|]. split; [|split].
  - apply elem_of_listed. exists (key_of (make_position now data)).
    rewrite Hp. apply lookup_insert_eq.
  - intros k q Hk. rewrite Hp. by rewrite lookup_insert_ne.
  - unfold listed. rewrite !length_fmap, !length_map_to_list, Hp.
    rewrite map_size_insert. by destruct (devicePositions st !! _).
Qed.

(** ** Statements handed to the database *)

Lemma processLocationUpdate_dbRun cfg now data st :
  missing_required data = false ->
  dbRun (processLocationUpdate cfg now data st)
  = dbRun st ++ statements_for cfg (make_position now data).
Proof.
  intros Hm. unfold processLocationUpdate. rewrite Hm. simpl.
  by destruct (deviceHistory st !! _).
Qed.

Lemma step_dbRun cfg st ev :
  dbRun (step cfg st ev)
  = dbRun st ++ match accepted cfg ev with
                | Some p => statements_for cfg p
                | None => []
                end.
Proof.
  destruct ev as [now data|now req| | | |]; simpl;
    try (by rewrite app_nil_r).
  - destruct (missing_required data) eqn:Hm.
    + rewrite processLocationUpdate_rejected by done. simpl.
      by rewrite app_nil_r.
    + by apply processLocationUpdate_dbRun.
  - unfold post_track. destruct (missing_required (body req)) eqn:Hm; simpl;
      [by rewrite app_nil_r|].
    destruct (negb _); simpl; [by rewrite app_nil_r|].
    by apply processLocationUpdate_dbRun.
  - unfold on_connection. simpl. case_match; simpl; by rewrite app_nil_r.
Qed.

(** X4. After any run, the calls made to [db.run] are, for each accepted
    record in acceptance order, the device upsert, the position insert and
    the cleanup bound to that record, and nothing else: a rejected payload
    or a socket event reaches the database with no statement. *)
Theorem database_mirror cfg start evs :
  dbRun (run cfg (initial start) evs)
  = concat (statements_for cfg <$> accepted_records cfg evs).
Proof.
  apply (run_accepted_ind cfg start (fun recs st =>
    dbRun st = concat (statements_for cfg <$> recs))).
  - done.
  - intros recs st ev p IH Hacc.
    rewrite step_dbRun, Hacc, IH, fmap_app, concat_app. simpl.
    by rewrite ?app_nil_r.
  - intros recs st ev IH Hacc.
    by rewrite step_dbRun, Hacc, IH, app_nil_r.
Qed.

(** ** The two stores agree on the devices they know *)

Lemma elem_of_prune_history {A} (H : Z) (l : list A) (x : A) :
  x ∈ prune_history H l -> x ∈ l.
Proof.
  unfold prune_history, splice0. case_match; [|done].
  apply subseteq_drop.
Qed.

(** X5. Whatever [historyPoints] is, in every state the server reaches the
    two maps have the same keys, every record kept for a device (as its
    latest position or in its history array) carries that device's id, and
    every kept record is one the server accepted. *)
Theorem stores_agree cfg start evs :
  let st := run cfg (initial start) evs in
  dom (devicePositions st) = dom (deviceHistory st)
  ∧ (∀ k p, devicePositions st !! k = Some p ->
       key_of p = k ∧ p ∈ accepted_records cfg evs)
  ∧ (∀ k history p, deviceHistory st !! k = Some history -> p ∈ history ->
       key_of p = k ∧ p ∈ accepted_records cfg evs).
Proof.
  simpl.
  apply (run_accepted_ind cfg start (fun recs st =>
    dom (devicePositions st) = dom (deviceHistory st)
    ∧ (∀ k p, devicePositions st !! k = Some p -> key_of p = k ∧ p ∈ recs)
    ∧ (∀ k history p, deviceHistory st !! k = Some history -> p ∈ history ->
         key_of p = k ∧ p ∈ recs))).
  - simpl. split; [done|]. split; intros k; intros; by simplify_map_eq.
  - intros recs st ev p (Hdom & Hpos & Hhist) Hacc.
    destruct (step_accepted cfg st ev p Hacc) as (Hp & Hh & _).
    rewrite Hp, Hh. split; [by rewrite !dom_insert_L, Hdom|]. split.
    + intros k q. destruct (decide (key_of p = k)) as [<-|Hne].
      * rewrite lookup_insert_eq. intros [= <-]. split; [done|].
        apply elem_of_app. right. by left.
      * rewrite lookup_insert_ne by done. intros Hq.
        destruct (Hpos k q Hq) as [? ?]. split; [done|].
        apply elem_of_app. by left.
    + intros k h q. destruct (decide (key_of p = k)) as [<-|Hne].
      * rewrite lookup_insert_eq. intros [= <-] Hq.
        apply elem_of_prune_history, elem_of_app in Hq as [Hq|Hq].
        -- unfold history_of in Hq.
           destruct (deviceHistory st !! key_of p) as [h0|] eqn:Hh0;
             [|by apply elem_of_nil in Hq].
           destruct (Hhist _ _ _ Hh0 Hq) as [? ?]. split; [done|].
           apply elem_of_app. by left.
        -- apply list_elem_of_singleton in Hq as ->. split; [done|].
           apply elem_of_app. right. by left.
      * rewrite lookup_insert_ne by done. intros Hk Hq.
        destruct (Hhist _ _ _ Hk Hq) as [? ?]. split; [done|].
        apply elem_of_app. by left.
  - intros recs st ev IH Hacc.
    destruct (step_not_accepted cfg st ev Hacc) as (Hp & Hh & _).
    by rewrite Hp, Hh.
Qed.

(** ** The socket registry *)

Lemma processLocationUpdate_socket cfg now data st ws :
  sockets (processLocationUpdate cfg now data st) !! ws
  = (fun s => if bool_decide (missing_required data = false
                              ∧ ws ∈ wsClients st ∧ readyState s = OPEN)
              then ws_send (MsgUpdate (make_position now data)) s else s)
    <$> sockets st !! ws.
Proof.
  destruct (missing_required data) eqn:Hm.
  - rewrite processLocationUpdate_rejected by done. simpl.
    by destruct (sockets st !! ws) as [s|].
  - rewrite processLocationUpdate_sockets, broadcastUpdate_sockets by done.
    destruct (sockets st !! ws) as [s|]; [|done]. simpl. f_equal.
    rewrite (bool_decide_ext (ws ∈ wsClients st ∧ readyState s = OPEN)
               (false = false ∧ ws ∈ wsClients st ∧ readyState s = OPEN));
      [done|tauto].
Qed.

Lemma processLocationUpdate_stats_wsClients cfg now data st :
  stats_wsClients (serverStats (processLocationUpdate cfg now data st))
  = stats_wsClients (serverStats st).
Proof.
  destruct (missing_required data) eqn:Hm.
  - by rewrite processLocationUpdate_rejected.
  - by rewrite processLocationUpdate_serverStats.
Qed.

Lemma processLocationUpdate_registry_ok cfg now data st :
  registry_ok st -> registry_ok (processLocationUpdate cfg now data st).
Proof.
  intros [Hsize Hsub]. split.
  - by rewrite processLocationUpdate_stats_wsClients,
      processLocationUpdate_wsClients.
  - rewrite processLocationUpdate_wsClients. intros ws Hws.
    apply Hsub in Hws. apply elem_of_dom in Hws as [s Hs].
    apply elem_of_dom. rewrite processLocationUpdate_socket, Hs. by eauto.
Qed.

Lemma on_connection_wsClients st :
  wsClients (on_connection st) = {[fresh (dom (sockets st))]} ∪ wsClients st.
Proof. unfold on_connection. simpl. by case_match. Qed.

Lemma on_connection_stats_wsClients st :
  stats_wsClients (serverStats (on_connection st))
  = Z.of_nat (size (wsClients (on_connection st))).
Proof. unfold on_connection. simpl. by case_match. Qed.

Lemma on_connection_other st ws :
  ws ≠ fresh (dom (sockets st)) ->
  sockets (on_connection st) !! ws = sockets st !! ws.
Proof.
  intros Hne. unfold on_connection. simpl. case_match; simpl.
  - by rewrite lookup_alter_ne, lookup_insert_ne.
  - by rewrite lookup_insert_ne.
Qed.

Lemma step_registry_ok cfg st ev :
  registry_ok st -> registry_ok (step cfg st ev).
Proof.
  intros Hok. destruct ev as [now data|now req| |ws|ws|ws rs]; simpl.
  - by apply processLocationUpdate_registry_ok.
  - unfold post_track. destruct (missing_required (body req)); [done|].
    destruct (negb _); [done|]. by apply processLocationUpdate_registry_ok.
  - destruct Hok as [_ Hsub]. split; [apply on_connection_stats_wsClients|].
    rewrite on_connection_wsClients. intros ws Hws.
    destruct (decide (ws = fresh (dom (sockets st)))) as [->|Hne].
    + apply elem_of_dom.
      destruct (on_connection_socket st) as (_ & _ & ->). by eauto.
    + apply elem_of_dom. rewrite on_connection_other by done.
      apply elem_of_dom, Hsub.
      apply elem_of_union in Hws as [Hws|Hws]; [|done].
      by apply elem_of_singleton in Hws.
  - destruct Hok as [_ Hsub]. split; [done|]. simpl.
    intros x Hx. apply Hsub. by apply elem_of_difference in Hx as [? _].
  - destruct Hok as [_ Hsub]. split; [done|]. simpl.
    intros x Hx. apply Hsub. by apply elem_of_difference in Hx as [? _].
  - destruct Hok as [Hsize Hsub]. split; [done|]. simpl.
    by rewrite dom_alter_L.
Qed.

Lemma run_registry_ok cfg start evs :
  registry_ok (run cfg (initial start) evs).
Proof.
  induction evs as [|ev evs IH] using rev_ind.
  - split; [done|]. simpl. intros x Hx. by apply elem_of_empty in Hx.
  - rewrite run_snoc. by apply step_registry_ok.
Qed.

(** X6. In every state the server reaches, the [wsClients] figure of
    GET /api/stats is the number of sockets in the registry, and every
    registered reference is a socket that was created by the connection
    handler. *)
Theorem registry_counter cfg start evs :
  let st := run cfg (initial start) evs in
  (∃ devices positions,
     get_stats cfg st
     = {| status := 200;
          json := JsonStats devices positions
                            (Z.of_nat (size (wsClients st)))
                            (historyPoints cfg) (onlineWindowS cfg) |})
  ∧ ∀ ws, ws ∈ wsClients st -> is_Some (sockets st !! ws).
Proof.
  intros st. destruct (run_registry_ok cfg start evs) as [Hsize Hsub].
  split.
  - exists (totalDevices (serverStats st)), (totalPositions (serverStats st)).
    unfold get_stats. subst st. by rewrite Hsize.
  - intros ws Hws. by apply elem_of_dom, Hsub.
Qed.

(** X7. Removing a socket is idempotent, and in a state the server reaches
    the close (or error) handler of a socket that is not registered, for
    instance one already removed, changes nothing. *)
Theorem close_twice cfg start evs ws :
  let st := run cfg (initial start) evs in
  on_close ws (on_close ws st) = on_close ws st
  ∧ on_error ws (on_close ws st) = on_close ws st
  ∧ (ws ∉ wsClients st -> on_close ws st = st).
Proof.
  intros st.
  assert (Hidem : on_close ws (on_close ws st) = on_close ws st).
  { unfold on_close, with_serverStats, with_wsClients. simpl.
    replace (wsClients st ∖ {[ws]} ∖ {[ws]}) with (wsClients st ∖ {[ws]});
      [done|].
    apply set_eq. intros x. rewrite !elem_of_difference. tauto. }
  split; [done|]. split; [done|].
  intros Hws. destruct (run_registry_ok cfg start evs) as [Hsize _].
  fold st in Hsize.
  unfold on_close, with_serverStats, with_wsClients. simpl.
  replace (wsClients st ∖ {[ws]}) with (wsClients st).
  - rewrite <- Hsize. by destruct st as [? ? ? [] ? ? ?].
  - apply set_eq. intros x. rewrite elem_of_difference, elem_of_singleton.
    split; [|tauto]. intros Hx. split; [done|]. by intros ->.
Qed.

(** ** What one subscriber receives *)

Lemma step_other_socket cfg st ev ws s :
  ¬ touches ws ev ->
  ws ∈ wsClients st ->
  sockets st !! ws = Some s ->
  readyState s = OPEN ->
  ws ∈ wsClients (step cfg st ev)
  ∧ sockets (step cfg st ev) !! ws
    = Some {| readyState := OPEN;
              sent := sent s ++ match accepted cfg ev with
                                | Some p => [MsgUpdate p]
                                | None => []
                                end |}.
Proof.
  intros Htouch Hreg Hs Hopen.
  assert (Hsame : Some s = Some {| readyState := OPEN; sent := sent s ++ [] |}).
  { rewrite app_nil_r. destruct s as [rs l]. simpl in Hopen. by subst. }
  assert (Hplu : ∀ now data,
    ws ∈ wsClients (processLocationUpdate cfg now data st)
    ∧ sockets (processLocationUpdate cfg now data st) !! ws
      = Some {| readyState := OPEN;
                sent := sent s ++
                  (if missing_required data then []
                   else [MsgUpdate (make_position now data)]) |}).
  { intros now data. rewrite processLocationUpdate_wsClients. split; [done|].
    rewrite processLocationUpdate_socket, Hs. simpl.
    destruct (missing_required data).
    - rewrite bool_decide_eq_false_2 by (by intros [? _]). done.
    - rewrite bool_decide_eq_true_2 by done. unfold ws_send.
      by rewrite Hopen. }
  destruct ev as [now data|now req| |ws'|ws'|ws' rs]; simpl in *.
  - destruct (Hplu now data) as [? ->]. split; [done|].
    by destruct (missing_required data).
  - unfold post_track. destruct (missing_required (body req)) eqn:Hm; simpl;
      [by rewrite Hs|].
    destruct (negb _); simpl; [by rewrite Hs|].
    destruct (Hplu now (body req)) as [? ->]. by rewrite Hm.
  - rewrite on_connection_wsClients.
    split; [apply elem_of_union; by right|].
    rewrite on_connection_other, Hs; [done|].
    intros ->. apply (is_fresh (dom (sockets st))).
    apply elem_of_dom. by eauto.
  - split; [|by rewrite Hs]. apply elem_of_difference. split; [done|].
    by intros ->%elem_of_singleton.
  - split; [|by rewrite Hs]. apply elem_of_difference. split; [done|].
    by intros ->%elem_of_singleton.
  - split; [done|]. rewrite lookup_alter_ne by done. by rewrite Hs.
Qed.

(** X8. A socket that connects and is then neither closed, failed nor
    moved out of the open state has been sent, in order, the snapshot of the
    moment it connected (when a device was known) followed by one update per
    record accepted since, each exactly once, and it is still registered. *)
Theorem subscriber_stream cfg st0 evs :
  let ws := fresh (dom (sockets st0)) in
  (∀ ev, ev ∈ evs -> ¬ touches ws ev) ->
  let st := run cfg (on_connection st0) evs in
  ws ∈ wsClients st
  ∧ sockets st !! ws
    = Some {| readyState := OPEN;
              sent := snapshot_of st0
                      ++ (MsgUpdate <$> accepted_records cfg evs) |}.
Proof.
  intros ws. induction evs as [|ev evs IH] using rev_ind; intros Hev st.
  - subst st. simpl.
    destruct (on_connection_socket st0) as (_ & Hreg & Hs).
    split; [done|]. fold ws in Hs. rewrite Hs. unfold snapshot_of.
    rewrite app_nil_r. by destruct ((map_to_list (devicePositions st0)).*2).
  - subst st. rewrite run_snoc, accepted_records_snoc, fmap_app.
    destruct IH as [Hreg Hs].
    { intros ev' Hin. apply Hev. apply elem_of_app. by left. }
    assert (Hnt : ¬ touches ws ev).
    { apply Hev. apply elem_of_app. right. by left. }
    destruct (step_other_socket cfg _ ev ws _ Hnt Hreg Hs eq_refl)
      as [Hreg' Hs'].
    split; [done|]. rewrite Hs'. simpl. rewrite <- app_assoc.
    by destruct (accepted cfg ev).
Qed.

(** ** Whole numbers out of parseInt *)

Lemma strip10_spec fuel m e :
  e <= (strip10 fuel m e).2
  ∧ Z.pos (strip10 fuel m e).1 * 10 ^ ((strip10 fuel m e).2 - e) = Z.pos m.
Proof.
  revert m e. induction fuel as [|fuel IH]; intros m e; simpl.
  { rewrite Z.sub_diag. lia. }
  destruct (N.eqb_spec (N.pos m mod 10) 0) as [Hmod|Hmod]; simpl;
    [|rewrite Z.sub_diag; lia].
  destruct (N.pos m / 10)%N as [|m'] eqn:Hdiv; simpl;
    [rewrite Z.sub_diag; lia|].
  destruct (IH m' (e + 1)) as [Hle Hval]. split; [lia|].
  replace ((strip10 fuel m' (e + 1)).2 - e)
    with (((strip10 fuel m' (e + 1)).2 - (e + 1)) + 1) by lia.
  rewrite Z.pow_add_r, Z.mul_assoc, Hval by lia.
  pose proof (N.div_mod (N.pos m) 10) as Hdm. rewrite Hdiv, Hmod in Hdm.
  lia.
Qed.

Lemma normalize_whole neg m e :
  0 <= e ->
  ∃ m' e', normalize (Dec neg m e) = Dec neg m' e' ∧ 0 <= e'
           ∧ Z.pos m' * 10 ^ e' = Z.pos m * 10 ^ e.
Proof.
  intros He. simpl.
  destruct (strip10_spec (Pos.size_nat m) m e) as [Hle Hval].
  destruct (strip10 (Pos.size_nat m) m e) as [m' e']. simpl in *.
  exists m', e'. split; [done|]. split; [lia|].
  rewrite <- Hval.
  replace e' with ((e' - e) + e) at 1 by lia.
  rewrite Z.pow_add_r by lia. lia.
Qed.

Lemma signed_whole neg v :
  (∃ neg', signed neg v 0 = Zero neg')
  ∨ ∃ m e, signed neg v 0 = Dec neg m e ∧ 0 <= e
           ∧ Z.pos m * 10 ^ e = Z.of_N v.
Proof.
  destruct v as [|p]; simpl; [left; by eauto|]. right.
  destruct (normalize_whole neg p 0) as (m' & e' & Hn & He & Hv); [done|].
  simpl in Hn. exists m', e'. rewrite Hn. split; [done|]. split; [done|].
  lia.
Qed.

(** The three shapes of a [parseInt] result. *)
Lemma parseInt_chars_shape input :
  parseInt_chars input = NaN
  ∨ (∃ neg, parseInt_chars input = Zero neg)
  ∨ ∃ neg m e, parseInt_chars input = Dec neg m e ∧ 0 <= e.
Proof.
  unfold parseInt_chars.
  destruct (read_sign (trim_start input)) as [neg s].
  match goal with
  | |- context [match ?x with pair _ _ => _ end] =>
      destruct x as [[radix dv] s']
  end.
  destruct (span_digits dv s') as [[|d ds] r]; [by left|].
  destruct (signed_whole neg (digits_value radix (d :: ds)))
    as [[neg' ->] | (m & e & -> & He & _)]; right; [left|right]; by eauto.
Qed.

(** X9. Of every record the server builds, speed, heading and sats are
    never NaN and never a negative zero, whatever the payload carries in
    these fields, text included: the [|| 0] after the coercion replaces
    both.  An infinite value is not excluded (the text "Infinity" as speed
    is kept), and nothing is said on whether heading and sats are whole. *)
Theorem optional_fields_are_numbers now data :
  let p := make_position now data in
  (speed p ≠ NaN ∧ speed p ≠ Zero true)
  ∧ (heading p ≠ NaN ∧ heading p ≠ Zero true)
  ∧ (sats p ≠ NaN ∧ sats p ≠ Zero true)
  ∧ (prop data "speed" = JStr "Infinity" -> speed p = Infinity false).
Proof.
  assert (Hor : ∀ x, num_or x (Zero false) ≠ NaN
                     ∧ num_or x (Zero false) ≠ Zero true)
    by (intros x; unfold num_or; by destruct x).
  simpl. split; [apply Hor|]. split; [apply Hor|]. split; [apply Hor|].
  by intros ->.
Qed.

(** ** The configuration *)

(** X10. Whatever the environment holds, the loaded configuration has a
    non-empty device token and a history bound and an online window that are
    not 0; an unset, empty, non-numeric or zero HISTORY_POINTS gives 500, an
    unset or empty DEVICE_TOKEN gives "default_token". *)
Theorem load_config_defaults env :
  let cfg := load_config env in
  deviceToken cfg ≠ ""%string
  ∧ historyPoints cfg ≠ 0
  ∧ onlineWindowS cfg ≠ 0
  ∧ (number_truthy (parseInt (env_var env "HISTORY_POINTS")) = false ->
     historyPoints cfg = 500)
  ∧ (env !! "HISTORY_POINTS"%string = None -> historyPoints cfg = 500)
  ∧ (env !! "DEVICE_TOKEN"%string = None
     ∨ env !! "DEVICE_TOKEN"%string = Some ""%string ->
     deviceToken cfg = "default_token"%string).
Proof.
  assert (Hnz : ∀ v d e, number_to_Z (num_or (parseInt v) (Dec false d e)) ≠ 0
                         ∨ e < 0).
  { intros v d e. unfold parseInt.
    destruct (parseInt_chars_shape (to_chars v))
      as [-> | [[neg ->] | (neg & m & e' & -> & He)]]; simpl.
    - destruct (Z.ltb_spec e 0); [by right|left].
      pose proof (Z.pow_pos_nonneg 10 e). lia.
    - destruct (Z.ltb_spec e 0); [by right|left].
      pose proof (Z.pow_pos_nonneg 10 e). lia.
    - left. pose proof (Z.pow_pos_nonneg 10 e'). destruct neg; lia. }
  simpl. split; [|split; [|split; [|split; [|split]]]].
  - unfold env_var. destruct (env !! "DEVICE_TOKEN"%string) as [s|]; [|done].
    simpl. unfold js_or. simpl. by destruct s.
  - destruct (Hnz (env_var env "HISTORY_POINTS") 5%positive 2); [done|lia].
  - destruct (Hnz (env_var env "ONLINE_WINDOW_S") 6%positive 1); [done|lia].
  - intros Hf. unfold num_or. by rewrite Hf.
  - intros Hn. unfold env_var. by rewrite Hn.
  - unfold env_var. by intros [-> | ->].
Qed.

(** X11. Under a negative history bound (HISTORY_POINTS=-5, say) the splice
    removes everything: in every state the server reaches each history array
    is empty, while the latest position of each device is still kept. *)
Theorem negative_bound_empties_history cfg start evs :
  historyPoints cfg < 0 ->
  let st := run cfg (initial start) evs in
  (∀ k history, deviceHistory st !! k = Some history -> history = [])
  ∧ ∀ k, devicePositions st !! k
         = last (records_of k (accepted_records cfg evs)).
Proof.
  intros HH st. split; [|intros k; apply devicePositions_run].
  subst st.
  apply (run_accepted_ind cfg start (fun _ st =>
    ∀ k history, deviceHistory st !! k = Some history -> history = [])).
  - intros k h. simpl. by rewrite lookup_empty.
  - intros recs st ev p IH Hacc k h.
    destruct (step_accepted cfg st ev p Hacc) as (_ & Hh & _). rewrite Hh.
    destruct (decide (key_of p = k)) as [<-|Hne].
    + rewrite lookup_insert_eq. intros [= <-].
      by apply prune_history_negative.
    + rewrite lookup_insert_ne by done. apply IH.
  - intros recs st ev IH Hacc k h.
    destruct (step_not_accepted cfg st ev Hacc) as (_ & Hh & _).
    rewrite Hh. apply IH.
Qed.

(** ** Row ids under inserts and cleanups *)

Lemma foldr_max_ge (ids : list Z) (seq : Z) :
  seq <= foldr Z.max seq ids ∧ ∀ i, i ∈ ids -> i <= foldr Z.max seq ids.
Proof.
  induction ids as [|a ids [IHs IHi]]; simpl.
  - split; [lia|]. intros i Hi. by apply elem_of_nil in Hi.
  - split; [lia|]. intros i [->|Hi]%elem_of_cons; [lia|].
    specialize (IHi i Hi). lia.
Qed.

Lemma statement_ids_ok lim db db' :
  ids_ok db -> Tables.statement lim db db' -> ids_ok db'.
Proof.
  intros (Hseq & Hnd & Hids) [d lat lng speed heading sats ts|d t' [scan _]].
  - unfold Tables.insert_position, Tables.next_id.
    destruct (foldr_max_ge (Sqlite.id <$> Tables.rows db) (Tables.sequence db))
      as [Hs Hi].
    split; [simpl; lia|]. simpl. rewrite fmap_app. simpl. split.
    + apply NoDup_app. split; [done|]. split; [|apply NoDup_singleton].
      intros i Hin Heq%list_elem_of_singleton.
      specialize (Hi i Hin). lia.
    + intros i [Hin|Heq%list_elem_of_singleton]%elem_of_app.
      * specialize (Hids i Hin). lia.
      * lia.
  - split; [done|]. simpl. split.
    + apply (sublist_NoDup _ (Sqlite.id <$> Tables.rows db)); [done|].
      apply fmap_sublist, sublist_filter.
    + intros i Hin. apply Hids.
      apply list_elem_of_fmap in Hin as (r & -> & Hr).
      apply list_elem_of_fmap_2. unfold Sqlite.cleanup in Hr.
      by apply list_elem_of_filter in Hr as [_ ?].
Qed.

Lemma statements_ids_ok lim db db' :
  ids_ok db -> Tables.statements lim db db' -> ids_ok db'.
Proof.
  intros Hok Hrun. induction Hrun as [|db1 db2 _ IH Hst]; [done|].
  by apply (statement_ids_ok lim db1).
Qed.

(** A row present after more statements was there before or has an id
    above the value the sequence counter had. *)
Lemma statements_later_rows lim db db' :
  Tables.statements lim db db' ->
  Tables.sequence db <= Tables.sequence db'
  ∧ ∀ r, r ∈ Tables.rows db' ->
         r ∈ Tables.rows db ∨ Tables.sequence db < Sqlite.id r.
Proof.
  intros Hrun. induction Hrun as [|db1 db2 _ [IHs IHr] Hst];
    [split; [lia|by auto]|].
  destruct Hst as [d lat lng speed heading sats ts|d t' [scan _]].
  - unfold Tables.insert_position, Tables.next_id.
    destruct (foldr_max_ge (Sqlite.id <$> Tables.rows db1)
                           (Tables.sequence db1)) as [Hs _].
    simpl. split; [lia|].
    intros r [Hr|Hr%list_elem_of_singleton]%elem_of_app; [by apply IHr|].
    right. subst r. simpl. lia.
  - simpl. split; [done|]. intros r Hr. apply IHr.
    unfold Sqlite.cleanup in Hr. by apply list_elem_of_filter in Hr as [_ ?].
Qed.

(** X12. Starting from the empty positions table, after any number of
    inserts and cleanups, in any order and whatever the engine does with
    tied timestamps, the row ids are positive, pairwise distinct and not
    above the sequence counter.  The counter never decreases, a row that
    appears later has an id above the counter of any earlier moment, and so
    an id freed by a cleanup is never given to a later row: once a row of
    the table at one moment is gone, no row of any later table has its
    id, and the next insert takes an id above every id the table ever
    held. *)
Theorem row_ids_stay_unique lim db db' :
  Tables.statements lim Tables.empty db ->
  Tables.statements lim db db' ->
  (NoDup (Sqlite.id <$> Tables.rows db')
   ∧ ∀ r, r ∈ Tables.rows db' -> 0 < Sqlite.id r <= Tables.sequence db')
  ∧ Tables.sequence db <= Tables.sequence db'
  ∧ (∀ r', r' ∈ Tables.rows db' ->
       r' ∈ Tables.rows db ∨ Tables.sequence db < Sqlite.id r')
  ∧ (∀ r r', r ∈ Tables.rows db -> r ∉ Tables.rows db' ->
       r' ∈ Tables.rows db' -> Sqlite.id r' ≠ Sqlite.id r)
  ∧ (∀ r d lat lng speed heading sats ts, r ∈ Tables.rows db ->
       Sqlite.id r
       < Tables.sequence
           (Tables.insert_position d lat lng speed heading sats ts db')).
Proof.
  intros Hrun Hmore.
  assert (Hempty : ids_ok Tables.empty).
  { split; [done|]. split; [constructor|].
    intros i Hi. by apply elem_of_nil in Hi. }
  pose proof (statements_ids_ok lim _ _ Hempty Hrun) as (_ & Hnd & Hids).
  pose proof (statements_ids_ok lim _ _
                (statements_ids_ok lim _ _ Hempty Hrun) Hmore)
    as (_ & Hnd' & Hids').
  destruct (statements_later_rows lim db db' Hmore) as [Hseq Hlater].
  assert (Hbound : ∀ r, r ∈ Tables.rows db ->
                        Sqlite.id r <= Tables.sequence db).
  { intros r Hr. by apply Hids, list_elem_of_fmap_2. }
  split; [|split; [done|split; [done|split]]].
  - split; [done|]. intros r Hr. by apply Hids', list_elem_of_fmap_2.
  - intros r r' Hr Hgone Hr' Heq.
    destruct (Hlater r' Hr') as [Hold|Hnew].
    + assert (r' = r); [|by subst].
      apply NoDup_fmap_1 in Hnd as Hrows.
      apply list_elem_of_lookup in Hold as [i Hi].
      apply list_elem_of_lookup in Hr as [j Hj].
      assert (i = j); [|by simplify_eq].
      apply (NoDup_lookup _ i j (Sqlite.id r) Hnd);
        rewrite list_lookup_fmap; [by rewrite Hi, <- Heq|by rewrite Hj].
    + specialize (Hbound r Hr). lia.
  - intros r d lat lng speed heading sats ts Hr.
    unfold Tables.insert_position, Tables.next_id. simpl.
    destruct (foldr_max_ge (Sqlite.id <$> Tables.rows db')
                           (Tables.sequence db')) as [Hs _].
    specialize (Hbound r Hr). lia.
Qed.

(** ** What the cleanup decides whatever the engine does *)

Section determinate.
Import Sqlite.

#[local] Instance timestamp_desc_transitive : Transitive timestamp_desc.
Proof. unfold timestamp_desc. intros a b c ??. lia. Qed.

Lemma where_device_NoDup d t :
  NoDup (id <$> t) -> NoDup (where_device d t).
Proof.
  intros Hnd. apply NoDup_fmap_1 in Hnd.
  apply (sublist_NoDup _ t); [done|]. apply sublist_filter.
Qed.

Lemma cleanup_kept_iff d lim scan t r :
  NoDup (id <$> t) ->
  order_by_timestamp_desc (where_device d t) scan ->
  r ∈ where_device d t ->
  r ∈ cleanup d lim scan t <-> r ∈ limit lim scan.
Proof.
  intros Hnd Hord Hr.
  pose proof (cleanup_kept d lim scan t Hnd Hord) as Hkept.
  rewrite <- Hkept. unfold where_device.
  rewrite list_elem_of_filter.
  unfold where_device in Hr. apply list_elem_of_filter in Hr as [Hd _].
  tauto.
Qed.

(** X13. With unique row ids and a bound of at least 0, two things hold of
    every outcome of [cleanupSQL], whatever order the engine gives tied
    rows: a row of the device with at least [historyPoints] strictly newer
    rows of that device is deleted, and a row with at most [historyPoints]
    rows of that device at least as recent, itself counted, is kept. *)
Theorem cleanup_decided d lim t t' r :
  NoDup (id <$> t) ->
  0 <= lim ->
  cleanup_result d d lim t t' ->
  r ∈ where_device d t ->
  (lim <= Z.of_nat (length (filter (fun x => timestamp r < timestamp x)
                                   (where_device d t))) ->
   r ∉ t')
  ∧ (Z.of_nat (length (filter (fun x => timestamp r <= timestamp x)
                              (where_device d t))) <= lim ->
     r ∈ t').
Proof.
  intros Hnd Hlim [scan Hord] Hr.
  pose proof (where_device_NoDup d t Hnd) as HndS.
  pose proof (cleanup_kept_iff d lim scan t r Hnd Hord Hr) as Hiff.
  destruct Hord as [Hperm Hsorted].
  apply Sorted_StronglySorted in Hsorted; [|apply _].
  assert (Hndscan : NoDup scan) by by rewrite Hperm.
  rewrite limit_take in Hiff.
  destruct (Z.ltb_spec lim 0) as [?|_]; [lia|].
  set (k := Z.to_nat lim) in *.
  rewrite <- (take_drop k scan) in Hsorted, Hndscan.
  split.
  - intros Hnewer Hin. apply Hiff in Hin.
    apply list_elem_of_split in Hin as (l1 & l2 & Hsplit).
    assert (Hlen : (length l1 < k)%nat).
    { assert (Hl : (length (take k scan) <= k)%nat)
        by (rewrite length_take; lia).
      rewrite Hsplit, length_app in Hl. simpl in Hl. lia. }
    rewrite Hsplit, <- app_assoc in Hsorted. simpl in Hsorted.
    apply StronglySorted_app_1_r, StronglySorted_cons in Hsorted
      as [Hafter _].
    rewrite Forall_forall in Hafter.
    assert (Hsub : filter (fun x => timestamp r < timestamp x)
                          (where_device d t) ⊆+ l1).
    { apply NoDup_submseteq.
      - apply (sublist_NoDup _ (where_device d t)); [done|].
        apply sublist_filter.
      - intros x [Hx HxS]%list_elem_of_filter.
        rewrite <- Hperm, <- (take_drop k scan), Hsplit, <- app_assoc in HxS.
        apply elem_of_app in HxS as [?|HxS]; [done|].
        apply elem_of_cons in HxS as [->|HxS]; [lia|].
        apply Hafter in HxS. unfold timestamp_desc in HxS. lia. }
    apply submseteq_length in Hsub. lia.
  - intros Hatleast. apply Hiff.
    assert (Hin : r ∈ take k scan ++ drop k scan)
      by (by rewrite take_drop, Hperm).
    apply elem_of_app in Hin as [?|Hin]; [done|]. exfalso.
    assert (Hsub : take k scan ++ [r]
                   ⊆+ filter (fun x => timestamp r <= timestamp x)
                             (where_device d t)).
    { apply NoDup_submseteq.
      - apply NoDup_app in Hndscan as (Hnd1 & Hdis & _).
        apply NoDup_app. split; [done|]. split; [|apply NoDup_singleton].
        intros x Hx ->%list_elem_of_singleton. by apply (Hdis r).
      - intros x Hx.
        apply elem_of_app in Hx as [Hx|Hx];
          [|apply list_elem_of_singleton in Hx as ->];
          apply list_elem_of_filter.
        + split.
          * exact (StronglySorted_app_1_elem_of _ _ _ _ _ Hsorted Hx Hin).
          * rewrite <- Hperm. by apply (subseteq_take k).
        + split; [lia|done]. }
    apply submseteq_length in Hsub.
    rewrite length_app, length_take in Hsub. simpl in Hsub.
    assert (k < length scan)%nat.
    { destruct (decide (k < length scan)%nat); [done|].
      rewrite drop_ge in Hin by lia. by apply elem_of_nil in Hin. }
    lia.
Qed.

(** X14. With a negative bound the cleanup deletes nothing, whatever the
    table holds. *)
Theorem cleanup_negative_bound d lim t t' :
  lim < 0 -> cleanup_result d d lim t t' -> t' = t.
Proof.
  intros Hlim [scan [Hperm _]]. apply cleanup_noop; [done|].
  apply limit_all. by left.
Qed.

End determinate.

(** ** The devices table *)

(** X15. INSERT OR REPLACE on a devices table whose [device_id]s are
    distinct leaves exactly one row for the device, holding the values just
    bound, under an id above every id the table held; its [created_at] is
    the time of this statement, so the creation time of a known device is
    reset at each update; the rows of other devices are untouched and the
    [device_id]s stay distinct. *)
Theorem upsert_device_replaces clock d seen lat lng speed heading sats db :
  NoDup (Tables.device_id <$> Tables.devices db) ->
  let db' := Tables.upsert_device clock d seen lat lng speed heading sats db in
  NoDup (Tables.device_id <$> Tables.devices db')
  ∧ (∃ i, filter (fun x => Tables.device_id x = d) (Tables.devices db')
          = [ {| Tables.id := i; Tables.device_id := d;
                 Tables.last_seen := seen;
                 Tables.last_lat := lat; Tables.last_lng := lng;
                 Tables.last_speed := speed;
                 Tables.last_heading := heading;
                 Tables.last_sats := sats;
                 Tables.created_at := clock;
                 Tables.updated_at := clock |} ]
          ∧ Tables.devices_sequence db' = i
          ∧ Tables.devices_sequence db < i
          ∧ ∀ x, x ∈ Tables.devices db -> Tables.id x < i)
  ∧ filter (fun x => Tables.device_id x ≠ d) (Tables.devices db')
    = filter (fun x => Tables.device_id x ≠ d) (Tables.devices db).
Proof.
  intros Hnd db'. subst db'. unfold Tables.upsert_device. simpl.
  set (others := filter (fun x => Tables.device_id x ≠ d) (Tables.devices db)).
  split; [|split].
  - rewrite fmap_app. simpl. apply NoDup_app. split; [|split].
    + apply (sublist_NoDup _ (Tables.device_id <$> Tables.devices db));
        [done|].
      apply fmap_sublist, sublist_filter.
    + intros x Hx Heq%list_elem_of_singleton. subst x.
      apply list_elem_of_fmap in Hx as (r & Hr & Hin).
      unfold others in Hin. apply list_elem_of_filter in Hin as [Hne _].
      by apply Hne.
    + apply NoDup_singleton.
  - eexists. split.
    + rewrite filter_app. unfold others.
      rewrite filter_none;
        [|by intros x [Hx _]%list_elem_of_filter].
      simpl. rewrite filter_cons_True by done. done.
    + unfold Tables.next_id.
      destruct (foldr_max_ge (Tables.id <$> Tables.devices db)
                             (Tables.devices_sequence db)) as [Hs Hi].
      split; [done|]. split; [lia|]. intros x Hx.
      specialize (Hi (Tables.id x) (list_elem_of_fmap_2 _ _ _ Hx)). lia.
  - rewrite filter_app. unfold others. rewrite list_filter_filter.
    rewrite filter_cons_False by (simpl; tauto).
    rewrite filter_nil, app_nil_r.
    apply list_filter_iff. tauto.
Qed.

(** ** The history route *)

Lemma parseInt_or_nonzero v d e :
  0 <= e -> number_to_Z (num_or (parseInt v) (Dec false d e)) ≠ 0.
Proof.
  intros He. pose proof (Z.pow_pos_nonneg 10 e).
  unfold parseInt.
  destruct (parseInt_chars_shape (to_chars v))
    as [-> | [[neg ->] | (neg & m & e' & -> & He')]]; simpl; [lia|lia|].
  pose proof (Z.pow_pos_nonneg 10 e'). destruct neg; lia.
Qed.

(** X16. Whenever the history query succeeds, the route answers 200 with
    [count] the number of positions returned, all of them rows of the
    requested device, newest timestamp first.  The limit is never 0: an
    absent, non-numeric or zero [limit] means 100; a positive limit caps the
    count; a negative limit lifts the cap, so every row of the device is
    returned.  A device with no rows gets an empty list, not an error. *)
Theorem history_route deviceId query t resp :
  Tables.history_result deviceId query t resp ->
  let n := Z.of_nat (length (Sqlite.where_device deviceId t)) in
  let lim := Tables.history_limit query in
  Tables.status resp = 200
  ∧ Tables.success resp = true
  ∧ Tables.count resp = length (Tables.positions resp)
  ∧ lim ≠ 0
  ∧ (number_truthy (parseInt (prop query "limit")) = false -> lim = 100)
  ∧ Z.of_nat (Tables.count resp) = (if lim <? 0 then n else Z.min n lim)
  ∧ Sorted (fun a b => Tables.timestamp b <= Tables.timestamp a)
           (Tables.positions resp)
  ∧ (∀ h, h ∈ Tables.positions resp ->
       ∃ r, r ∈ t ∧ Sqlite.device_id r = deviceId
            ∧ h = Tables.select_columns r)
  ∧ (n = 0 -> Tables.positions resp = []).
Proof.
  intros [scan [Hperm Hsorted]] n lim. simpl.
  assert (Hlen : Z.of_nat (length scan) = n) by (subst n; by rewrite Hperm).
  split; [done|]. split; [done|]. split; [done|].
  split; [by apply parseInt_or_nonzero|].
  split; [intros Hf; subst lim; unfold Tables.history_limit, num_or;
          by rewrite Hf|].
  fold lim. split; [|split; [|split]].
  - rewrite length_fmap. unfold Sqlite.limit.
    destruct (Z.ltb_spec lim 0); [done|]. rewrite length_take. lia.
  - apply (Sorted_fmap _ Sqlite.timestamp_desc); [done|].
    rewrite limit_take.
    apply Sorted_StronglySorted in Hsorted;
      [|unfold Sqlite.timestamp_desc; intros a b c ??; lia].
    rewrite <- (take_drop (if lim <? 0 then length scan else Z.to_nat lim) scan)
      in Hsorted.
    apply StronglySorted_app_1_l in Hsorted.
    by apply StronglySorted_Sorted.
  - intros h (r & -> & Hr)%list_elem_of_fmap. exists r.
    rewrite limit_take in Hr. apply subseteq_take in Hr.
    rewrite Hperm in Hr. unfold Sqlite.where_device in Hr.
    apply list_elem_of_filter in Hr as [? ?]. done.
  - intros Hn. assert (scan = []) as -> by (apply nil_length_inv; lia).
    by rewrite limit_take, take_nil.
Qed.

(** ** Printing a number and reading it back *)

Lemma digit_cons c d l v :
  digit_val c = Some d -> all_digits l -> digit_vals l = v ->
  all_digits (c :: l) ∧ digit_vals (c :: l) = d :: v.
Proof.
  intros Hc Hl Hv. split.
  - constructor; [by eexists|done].
  - subst v. unfold digit_vals. simpl. by rewrite Hc.
Qed.

Lemma uint_chars_digits u :
  all_digits (list_ascii_of_string (NilEmpty.string_of_uint u))
  ∧ digit_vals (list_ascii_of_string (NilEmpty.string_of_uint u))
    = uint_digits u.
Proof.
  induction u as [|u [IHa IHv]|u [IHa IHv]|u [IHa IHv]|u [IHa IHv]
                  |u [IHa IHv]|u [IHa IHv]|u [IHa IHv]|u [IHa IHv]
                  |u [IHa IHv]|u [IHa IHv]]; simpl;
    [by split; [constructor|]|..];
    by apply digit_cons.
Qed.

Lemma digits_value_acc u acc :
  foldl (fun a d => (a * 10 + d)%N) (N.pos acc) (uint_digits u)
  = N.pos (Pos.of_uint_acc u acc).
Proof.
  revert acc. induction u as [|u IH|u IH|u IH|u IH|u IH|u IH|u IH|u IH|u IH|u IH];
    intros acc; simpl; [done|..]; rewrite <- IH; f_equal; lia.
Qed.

Lemma digits_value_uint u :
  digits_value 10 (uint_digits u) = Pos.of_uint u.
Proof.
  unfold digits_value.
  induction u as [|u IH|u IH|u IH|u IH|u IH|u IH|u IH|u IH|u IH|u IH];
    simpl; [done|done|..]; apply (digits_value_acc u).
Qed.

Lemma digits_of_pos_spec p :
  all_digits (digits_of_pos p)
  ∧ digits_value 10 (digit_vals (digits_of_pos p)) = N.pos p
  ∧ digits_of_pos p ≠ [].
Proof.
  unfold digits_of_pos.
  destruct (uint_chars_digits (Pos.to_uint p)) as [Ha Hv].
  assert (Hval : digits_value 10
                   (digit_vals (list_ascii_of_string
                                  (NilEmpty.string_of_uint (Pos.to_uint p))))
                 = N.pos p).
  { rewrite Hv, digits_value_uint. apply Unsigned.of_to. }
  split; [done|]. split; [done|].
  intros Hnil. rewrite Hnil in Hval. done.
Qed.

Lemma span_digits_app l rest :
  all_digits l -> no_digit_head rest ->
  span_digits digit_val (l ++ rest) = (digit_vals l, rest).
Proof.
  intros Hl Hrest. induction Hl as [|c l [d Hc] Hl IH].
  - destruct rest as [|c rest]; [done|]. simpl in *. by rewrite Hrest.
  - destruct (digit_cons c d l _ Hc Hl eq_refl) as [_ Hv]. rewrite Hv.
    change ((c :: l) ++ rest) with (c :: (l ++ rest)).
    cbn [span_digits]. by rewrite Hc, IH.
Qed.

Lemma digit_vals_app l1 l2 :
  digit_vals (l1 ++ l2) = digit_vals l1 ++ digit_vals l2.
Proof. apply omap_app. Qed.

Lemma all_digits_zeros z : all_digits (replicate z "0"%char).
Proof. induction z; constructor; [by eexists|done]. Qed.

Lemma digit_vals_zeros z : digit_vals (replicate z "0"%char) = replicate z 0%N.
Proof.
  induction z as [|z IH]; [done|].
  change (replicate (S z) "0"%char) with ("0"%char :: replicate z "0"%char).
  by destruct (digit_cons "0"%char 0%N _ _ eq_refl (all_digits_zeros z) IH).
Qed.

Lemma digits_value_zeros_r v z :
  Z.of_N (digits_value 10 (v ++ replicate z 0%N))
  = Z.of_N (digits_value 10 v) * 10 ^ Z.of_nat z.
Proof.
  unfold digits_value. rewrite foldl_app.
  generalize (foldl (fun acc d => (acc * 10 + d)%N) 0%N v). intros a.
  revert a. induction z as [|z IH]; intros a.
  - simpl. lia.
  - simpl foldl. rewrite IH, Nat2Z.inj_succ, Z.pow_succ_r by lia. lia.
Qed.

Lemma digits_value_zeros_l v z :
  digits_value 10 (0%N :: replicate z 0%N ++ v) = digits_value 10 v.
Proof.
  unfold digits_value. simpl. rewrite foldl_app.
  f_equal. induction z as [|z IH]; [done|]. simpl. done.
Qed.

(** Stripping stops at a mantissa that 10 does not divide. *)
Lemma strip10_stops fuel m e :
  Z.pos m < 2 ^ Z.of_nat fuel ->
  Z.pos (strip10 fuel m e).1 mod 10 ≠ 0.
Proof.
  revert m e. induction fuel as [|fuel IH]; intros m e Hm.
  { simpl in Hm. lia. }
  simpl strip10.
  destruct (N.eqb_spec (N.pos m mod 10) 0) as [Hmod|Hmod]; simpl.
  - destruct (N.pos m / 10)%N as [|m'] eqn:Hdiv; simpl.
    + pose proof (N.div_mod (N.pos m) 10) as Hdm. rewrite Hdiv, Hmod in Hdm.
      lia.
    + apply IH.
      pose proof (N.div_mod (N.pos m) 10) as Hdm. rewrite Hdiv, Hmod in Hdm.
      rewrite Nat2Z.inj_succ, Z.pow_succ_r in Hm by lia. lia.
  - intros Hz. apply Hmod.
    apply N2Z.inj. rewrite N2Z.inj_mod. simpl. done.
Qed.

Lemma decimal_unique (s m : positive) (z j : Z) :
  0 <= z -> 0 <= j ->
  Z.pos s * 10 ^ z = Z.pos m * 10 ^ j ->
  Z.pos s mod 10 ≠ 0 -> Z.pos m mod 10 ≠ 0 ->
  s = m ∧ z = j.
Proof.
  intros Hz Hj Heq Hs Hm.
  assert (Hcase : ∀ (a b : positive) (x y : Z),
            0 <= x -> x < y -> Z.pos a * 10 ^ x = Z.pos b * 10 ^ y ->
            Z.pos a mod 10 = 0).
  { intros a b x y Hx Hxy Hab.
    replace y with (x + ((y - x - 1) + 1)) in Hab by lia.
    rewrite !Z.pow_add_r in Hab by lia.
    pose proof (Z.pow_pos_nonneg 10 x).
    assert (Z.pos a = 10 * (Z.pos b * 10 ^ (y - x - 1))) as -> by nia.
    rewrite Z.mul_comm. apply Z_mod_mult. }
  destruct (Z.lt_trichotomy z j) as [Hlt | [-> | Hgt]].
  - exfalso. apply Hs. by apply (Hcase s m z j).
  - split; [|done]. pose proof (Z.pow_pos_nonneg 10 j). nia.
  - exfalso. apply Hm. by apply (Hcase m s j z).
Qed.

Lemma normalize_Dec neg m e :
  ∃ s e', normalize (Dec neg m e) = Dec neg s e'
          ∧ Z.pos s mod 10 ≠ 0 ∧ e <= e'
          ∧ Z.pos s * 10 ^ (e' - e) = Z.pos m.
Proof.
  simpl.
  destruct (strip10_spec (Pos.size_nat m) m e) as [Hle Hval].
  pose proof (strip10_stops (Pos.size_nat m) m e) as Hstop.
  destruct (strip10 (Pos.size_nat m) m e) as [s e']. simpl in *.
  exists s, e'. split; [done|]. split; [|done].
  apply Hstop. by apply Zpower2_Psize.
Qed.

(** A value written as s * 10^j with s not a multiple of 10 is stored as
    that mantissa and exponent. *)
Lemma signed_canonical neg v e0 s j :
  Z.of_N v = Z.pos s * 10 ^ j -> 0 <= j -> Z.pos s mod 10 ≠ 0 ->
  signed neg v e0 = Dec neg s (e0 + j).
Proof.
  intros Hv Hj Hs. pose proof (Z.pow_pos_nonneg 10 j).
  destruct v as [|p]; [simpl in Hv; lia|]. unfold signed.
  destruct (normalize_Dec neg p e0) as (s' & e' & -> & Hs' & Hle & Hval).
  destruct (decimal_unique s s' j (e' - e0)) as [-> Hj']; try done; [lia| |].
  - rewrite Hval. done.
  - f_equal. lia.
Qed.

Lemma length_digit_vals l : all_digits l -> length (digit_vals l) = length l.
Proof.
  intros Hl. induction Hl as [|c l [d Hc] Hl IH]; [done|].
  destruct (digit_cons c d l _ Hc Hl eq_refl) as [_ ->]. simpl. by rewrite IH.
Qed.

Lemma digit_head c rest :
  is_Some (digit_val c) ->
  trim_start (c :: rest) = c :: rest
  ∧ read_sign (c :: rest) = (false, c :: rest)
  ∧ c ≠ "."%char ∧ c ≠ "I"%char.
Proof.
  intros [d Hd].
  destruct c as [[] [] [] [] [] [] [] []]; vm_compute in Hd; try discriminate Hd;
    repeat split; done.
Qed.

(** The start of [parseFloat] on a sign and a text that begins with a
    digit. *)
Lemma parseFloat_chars_start (neg : bool) body :
  (∃ c rest, body = c :: rest ∧ is_Some (digit_val c)) ->
  read_sign (trim_start ((if neg then ["-"%char] else []) ++ body))
  = (neg, body)
  ∧ is_prefix (list_ascii_of_string "Infinity") body = false.
Proof.
  intros (c & rest & -> & Hc).
  destruct (digit_head c rest Hc) as (Htrim & Hsign & _ & HI). split.
  - destruct neg; simpl app.
    + done.
    + by rewrite Htrim, Hsign.
  - unfold is_prefix. apply bool_decide_eq_false. simpl. intros Heq.
    by injection Heq as ->.
Qed.

Lemma exp_tail_no_digit tail :
  tail = [] ∨ (∃ ex, tail = "e"%char :: ex) ->
  no_digit_head tail ∧ ∀ r1, tail ≠ "."%char :: r1.
Proof. intros [-> | [ex ->]]; split; done. Qed.

(** Digits with no decimal point. *)
Lemma parseFloat_chars_integer (neg : bool) (ip tail : list ascii) :
  all_digits ip -> ip ≠ [] ->
  tail = [] ∨ (∃ ex, tail = "e"%char :: ex) ->
  parseFloat_chars ((if neg then ["-"%char] else []) ++ ip ++ tail)
  = signed neg (digits_value 10 (digit_vals ip)) (read_exponent tail).
Proof.
  intros Hip Hne Htail.
  destruct (exp_tail_no_digit tail Htail) as [Hnd Hnp].
  unfold parseFloat_chars.
  destruct (parseFloat_chars_start neg (ip ++ tail)) as [-> ->].
  { destruct Hip as [|c l Hc _]; [done|]. by exists c, (l ++ tail). }
  rewrite span_digits_app by done.
  assert (Hv : digit_vals ip ≠ []).
  { intros Hnil. apply (f_equal length) in Hnil.
    rewrite length_digit_vals in Hnil by done. by destruct ip. }
  destruct tail as [|c tail'].
  - rewrite app_nil_r. destruct (digit_vals ip); [done|]. simpl.
    by rewrite Z.sub_0_r.
  - destruct (decide (c = "."%char)) as [->|Hc]; [by destruct (Hnp tail')|].
    assert (Hm : (match c :: tail' with
                  | "."%char :: r1 => span_digits digit_val r1
                  | _ => ([], c :: tail')
                  end) = ([], c :: tail')).
    { destruct c as [[] [] [] [] [] [] [] []]; done. }
    rewrite Hm, app_nil_r. destruct (digit_vals ip); [done|]. simpl length.
    by rewrite Z.sub_0_r.
Qed.

(** Digits, a decimal point, digits. *)
Lemma parseFloat_chars_fraction (neg : bool) (ip fp tail : list ascii) :
  all_digits ip -> ip ≠ [] -> all_digits fp ->
  tail = [] ∨ (∃ ex, tail = "e"%char :: ex) ->
  parseFloat_chars
    ((if neg then ["-"%char] else []) ++ ip ++ "."%char :: fp ++ tail)
  = signed neg (digits_value 10 (digit_vals ip ++ digit_vals fp))
           (read_exponent tail - Z.of_nat (length fp)).
Proof.
  intros Hip Hne Hfp Htail.
  destruct (exp_tail_no_digit tail Htail) as [Hnd _].
  unfold parseFloat_chars.
  destruct (parseFloat_chars_start neg (ip ++ "."%char :: fp ++ tail))
    as [-> ->].
  { destruct Hip as [|c l Hc _]; [done|].
    by exists c, (l ++ "."%char :: fp ++ tail). }
  rewrite span_digits_app by done.
  rewrite span_digits_app by done.
  rewrite length_digit_vals by done.
  destruct (digit_vals ip ++ digit_vals fp) eqn:Hv; [|done].
  apply app_eq_nil in Hv as [Hv _]. apply (f_equal length) in Hv.
  rewrite length_digit_vals in Hv by done. by destruct ip.
Qed.

Lemma read_exponent_printed z :
  read_exponent ("e"%char :: (if z <? 0 then "-"%char else "+"%char)
                             :: digits_of_Z_abs z)
  = z.
Proof.
  assert (Hspan : ∀ l, all_digits l -> l ≠ [] ->
            (match span_digits digit_val l with
             | ([], _) => 0
             | (ds, _) => Z.of_N (digits_value 10 ds)
             end) = Z.of_N (digits_value 10 (digit_vals l))).
  { intros l Hl Hne. rewrite <- (app_nil_r l) at 1.
    rewrite span_digits_app by done.
    destruct (digit_vals l) eqn:Hv; [|done].
    apply (f_equal length) in Hv. rewrite length_digit_vals in Hv by done.
    by destruct l. }
  assert (Habs : ∀ l v, all_digits l -> l ≠ [] ->
            Z.of_N (digits_value 10 (digit_vals l)) = v ->
            (match span_digits digit_val l with
             | ([], _) => 0
             | (ds, _) => Z.of_N (digits_value 10 ds)
             end) = v).
  { intros l v Hl Hne <-. by apply Hspan. }
  destruct z as [|p|p]; [done|..]; cbn [read_exponent Z.ltb Z.compare];
    destruct (digits_of_pos_spec p) as (Ha & Hv & Hne); simpl.
  - specialize (Habs _ (Z.pos p) Ha Hne). rewrite Hv in Habs.
    specialize (Habs eq_refl).
    destruct (span_digits digit_val (digits_of_pos p)) as [[|d ds] r];
      [done|]. done.
  - specialize (Habs _ (Z.pos p) Ha Hne). rewrite Hv in Habs.
    specialize (Habs eq_refl).
    destruct (span_digits digit_val (digits_of_pos p)) as [[|d ds] r];
      [done|]. by rewrite Habs.
Qed.

Lemma all_digits_app l1 l2 :
  all_digits l1 -> all_digits l2 -> all_digits (l1 ++ l2).
Proof. apply Forall_app_2. Qed.

Section layouts.
Context (neg : bool) (s : positive) (e' : Z).
Context (Hs : Z.pos s mod 10 ≠ 0).

Let ds := digits_of_pos s.
Let k := Z.of_nat (length ds).
Let n := e' + k.
Let sign : list ascii := if neg then ["-"%char] else [].

Lemma layout_facts :
  all_digits ds ∧ ds ≠ [] ∧ 1 <= k
  ∧ Z.of_N (digits_value 10 (digit_vals ds)) = Z.pos s * 10 ^ 0.
Proof.
  destruct (digits_of_pos_spec s) as (Ha & Hv & Hne). fold ds in Ha, Hv, Hne.
  split; [done|]. split; [done|]. split.
  - subst k. destruct ds; [done|simpl; lia].
  - rewrite Hv. simpl. lia.
Qed.

(** An integer: the digits, then zeros. *)
Lemma layout_integer :
  k <= n ->
  parseFloat_chars (sign ++ ds ++ replicate (Z.to_nat (n - k)) "0"%char)
  = Dec neg s e'.
Proof.
  intros Hkn. destruct layout_facts as (Ha & Hne & Hk & Hval).
  replace (ds ++ replicate (Z.to_nat (n - k)) "0"%char)
    with ((ds ++ replicate (Z.to_nat (n - k)) "0"%char) ++ [])
    by apply app_nil_r.
  unfold sign. rewrite parseFloat_chars_integer;
    [|by apply all_digits_app, all_digits_zeros
     |by destruct ds|by left].
  replace e' with (read_exponent [] + Z.of_nat (Z.to_nat (n - k)))
    by (subst n; simpl; lia).
  apply signed_canonical; [|lia|done].
  rewrite digit_vals_app, digit_vals_zeros, digits_value_zeros_r, Hval.
  lia.
Qed.

(** A decimal point inside the digits. *)
Lemma layout_point :
  0 < n -> n < k ->
  parseFloat_chars
    (sign ++ take (Z.to_nat n) ds ++ "."%char :: drop (Z.to_nat n) ds)
  = Dec neg s e'.
Proof.
  intros Hn0 Hnk. destruct layout_facts as (Ha & Hne & Hk & Hval).
  replace (drop (Z.to_nat n) ds) with (drop (Z.to_nat n) ds ++ [])
    by apply app_nil_r.
  unfold sign. rewrite parseFloat_chars_fraction;
    [|apply Forall_take, Ha| |apply Forall_drop, Ha|by left].
  - rewrite <- digit_vals_app, take_drop, length_drop.
    replace e' with ((read_exponent [] - Z.of_nat (length ds - Z.to_nat n))
                     + 0) by (subst n k; simpl; lia).
    by apply signed_canonical.
  - destruct (Z.to_nat n) eqn:Hz; [lia|]. by destruct ds.
Qed.

(** Below 1: "0." and zeros before the digits. *)
Lemma layout_leading_zero :
  n <= 0 ->
  parseFloat_chars
    (sign ++ "0"%char :: "."%char :: replicate (Z.to_nat (- n)) "0"%char ++ ds)
  = Dec neg s e'.
Proof.
  intros Hn0. destruct layout_facts as (Ha & Hne & Hk & Hval).
  change ("0"%char :: "."%char :: replicate (Z.to_nat (- n)) "0"%char ++ ds)
    with (["0"%char] ++ "."%char :: replicate (Z.to_nat (- n)) "0"%char ++ ds).
  replace (replicate (Z.to_nat (- n)) "0"%char ++ ds)
    with ((replicate (Z.to_nat (- n)) "0"%char ++ ds) ++ [])
    by apply app_nil_r.
  unfold sign. rewrite parseFloat_chars_fraction;
    [|by repeat constructor; eexists|done
     |by apply all_digits_app; [apply all_digits_zeros|]|by left].
  rewrite length_app, length_replicate, digit_vals_app, digit_vals_zeros.
  replace e'
    with ((read_exponent [] - Z.of_nat (Z.to_nat (- n) + length ds)) + 0)
    by (subst n k; simpl; lia).
  apply signed_canonical; [|lia|done].
  change (digit_vals ["0"%char]) with [0%N]. simpl app.
  by rewrite digits_value_zeros_l.
Qed.

(** Exponent notation. *)
Lemma layout_exponent :
  let ex := (if n - 1 <? 0 then "-"%char else "+"%char)
              :: digits_of_Z_abs (n - 1) in
  parseFloat_chars
    (sign ++ (if k =? 1 then ds ++ "e"%char :: ex
              else take 1 ds ++ "."%char :: drop 1 ds ++ "e"%char :: ex))
  = Dec neg s e'.
Proof.
  intros ex. destruct layout_facts as (Ha & Hne & Hk & Hval). unfold sign.
  destruct (Z.eqb_spec k 1) as [Hk1|Hk1].
  - rewrite parseFloat_chars_integer; [|done|done|by eauto].
    subst ex. rewrite read_exponent_printed.
    replace e' with ((n - 1) + 0) by (subst n; lia).
    by apply signed_canonical.
  - rewrite parseFloat_chars_fraction;
      [|apply Forall_take, Ha|by destruct ds
       |apply Forall_drop, Ha|by eauto].
    subst ex. rewrite read_exponent_printed, <- digit_vals_app, take_drop.
    rewrite length_drop.
    replace e' with ((n - 1 - Z.of_nat (length ds - 1)) + 0)
      by (subst n k; lia).
    by apply signed_canonical.
Qed.

End layouts.

(** The text Number::toString prints, read by [parseFloat], whichever of
    the notations the number takes. *)
Lemma parseFloat_chars_printed x :
  parseFloat_chars (number_to_chars x) = reparsed x.
Proof.
  destruct x as [|neg|neg|neg m e];
    [done|by destruct neg|by destruct neg|].
  unfold number_to_chars, reparsed.
  destruct (normalize_Dec neg m e) as (s & e' & -> & Hs & _ & _).
  cbv beta iota zeta.
  set (ds := digits_of_pos s).
  set (k := Z.of_nat (length ds)).
  set (n := e' + k).
  destruct (Z.leb_spec k n), (Z.leb_spec n 21), (Z.ltb_spec 0 n),
    (Z.ltb_spec (-6) n), (Z.leb_spec n 0);
    cbv beta iota delta [andb]; subst n k ds;
    first [ solve [apply layout_integer; [done|lia]]
          | solve [apply layout_point; [done|lia|lia]]
          | solve [apply layout_leading_zero; [done|lia]]
          | solve [by apply layout_exponent]
          | lia ].
Qed.

(** X17. [parseFloat] applied to a number gives the number back, in
    canonical form: printing a number and parsing the text loses nothing,
    whichever of the notations of Number::toString the number takes
    (integer, decimal point, leading "0.", exponent); only -0 changes, to
    0.  A payload that carries the number as its decimal text is read the
    same way. *)
Theorem parseFloat_number x :
  parseFloat (JNum x) = reparsed x
  ∧ parseFloat (JStr (string_of_list_ascii (number_to_chars x))) = reparsed x.
Proof.
  unfold parseFloat, to_chars.
  rewrite list_ascii_of_string_of_list_ascii.
  split; apply parseFloat_chars_printed.
Qed.

Lemma reparsed_truthy x :
  number_truthy x = true ->
  reparsed x = normalize x ∧ number_truthy (normalize x) = true.
Proof.
  destruct x as [| | |neg m e]; try done. intros _. unfold reparsed.
  destruct (normalize_Dec neg m e) as (s & e' & -> & _). done.
Qed.

(** X18. Numeric fields survive the coercion.  When [lat] and [lng] are
    non-zero numbers the record holds exactly those numbers, in canonical
    form; a numeric [speed] is held as sent when it is not zero or NaN, and
    as 0 otherwise. *)
Theorem numeric_fields_kept now data x :
  let p := make_position now data in
  (prop data "lat" = JNum x -> number_truthy x = true -> lat p = normalize x)
  ∧ (prop data "lng" = JNum x -> number_truthy x = true ->
     lng p = normalize x)
  ∧ (prop data "speed" = JNum x ->
     speed p = if number_truthy x then normalize x else Zero false).
Proof.
  assert (Hread : parseFloat (JNum x) = reparsed x)
    by apply parseFloat_chars_printed.
  simpl. split; [|split].
  - intros -> Hx. rewrite Hread. by apply reparsed_truthy.
  - intros -> Hx. rewrite Hread. by apply reparsed_truthy.
  - intros ->. rewrite Hread. unfold num_or.
    destruct (number_truthy x) eqn:Hx.
    + destruct (reparsed_truthy x Hx) as [-> ->]. done.
    + by destruct x.
Qed.

(** ** parseInt of a number *)

Lemma digit_val_bound c d : digit_val c = Some d -> (d < 10)%N.
Proof.
  unfold digit_val. case_match eqn:Hc; [|done]. intros [= <-].
  apply andb_true_iff in Hc as [_ Hc]. apply N.leb_le in Hc. lia.
Qed.

Lemma digits_value_app v1 v2 :
  Z.of_N (digits_value 10 (v1 ++ v2))
  = Z.of_N (digits_value 10 v1) * 10 ^ Z.of_nat (length v2)
    + Z.of_N (digits_value 10 v2).
Proof.
  induction v2 as [|d v2 IH] using rev_ind.
  - rewrite app_nil_r. simpl. lia.
  - assert (Hsnoc : ∀ v, digits_value 10 (v ++ [d])
                        = (digits_value 10 v * 10 + d)%N)
      by (intros v; unfold digits_value; by rewrite foldl_app).
    rewrite app_assoc, !Hsnoc.
    rewrite length_app, Nat2Z.inj_add, Z.pow_add_r by lia. simpl length.
    rewrite !N2Z.inj_add, !N2Z.inj_mul, IH. simpl. lia.
Qed.

Lemma digits_value_cons d v :
  Z.of_N (digits_value 10 (d :: v))
  = Z.of_N d * 10 ^ Z.of_nat (length v) + Z.of_N (digits_value 10 v).
Proof. apply (digits_value_app [d] v). Qed.

Lemma digits_value_bound l :
  all_digits l ->
  0 <= Z.of_N (digits_value 10 (digit_vals l)) < 10 ^ Z.of_nat (length l).
Proof.
  intros Hl. induction Hl as [|c l [d Hc] Hl IH]; [done|].
  destruct (digit_cons c d l _ Hc Hl eq_refl) as [_ ->].
  rewrite digits_value_cons, length_digit_vals by done.
  apply digit_val_bound in Hc.
  simpl length. rewrite Nat2Z.inj_succ, Z.pow_succ_r by lia.
  pose proof (Z.pow_pos_nonneg 10 (Z.of_nat (length l))). nia.
Qed.

(** A decimal numeral of a positive number has no leading zero. *)
Lemma to_uint_head p :
  match Pos.to_uint p with
  | Decimal.Nil | Decimal.D0 _ => False
  | _ => True
  end.
Proof.
  pose proof (Unsigned.to_of (Pos.to_uint p)) as Hu.
  pose proof (Unsigned.of_to p) as Hof.
  rewrite Hof in Hu. simpl in Hu. unfold Decimal.unorm in Hu.
  destruct (Decimal.nzhead (Pos.to_uint p)) eqn:Hnz.
  - rewrite Hu in Hof. done.
  - by destruct (nzhead_nonzero (Pos.to_uint p) u).
  - by rewrite Hu.
  - by rewrite Hu.
  - by rewrite Hu.
  - by rewrite Hu.
  - by rewrite Hu.
  - by rewrite Hu.
  - by rewrite Hu.
  - by rewrite Hu.
  - by rewrite Hu.
Qed.

Lemma digits_of_pos_bounds p :
  let k := Z.of_nat (length (digits_of_pos p)) in
  10 ^ (k - 1) <= Z.pos p < 10 ^ k.
Proof.
  simpl. destruct (digits_of_pos_spec p) as (Ha & Hv & Hne).
  pose proof (digits_value_bound _ Ha) as Hb. rewrite Hv in Hb.
  split; [|by apply Hb].
  unfold digits_of_pos in *.
  pose proof (to_uint_head p) as Hhead.
  destruct (uint_chars_digits (Pos.to_uint p)) as [Hall Hvals].
  assert (Hlen : length (uint_digits (Pos.to_uint p))
                 = length (list_ascii_of_string
                             (NilEmpty.string_of_uint (Pos.to_uint p))))
    by (rewrite <- Hvals; by apply length_digit_vals).
  rewrite Hvals in Hv. rewrite <- Hlen.
  assert (Hrest : ∀ v, 0 <= Z.of_N (digits_value 10 v)).
  { intros v. lia. }
  destruct (Pos.to_uint p) as [|u|u|u|u|u|u|u|u|u|u]; try done;
    cbn [uint_digits] in *; apply (f_equal Z.of_N) in Hv;
    rewrite digits_value_cons in Hv; simpl length;
    rewrite Nat2Z.inj_succ;
    replace (Z.succ (Z.of_nat (length (uint_digits u))) - 1)
      with (Z.of_nat (length (uint_digits u))) by lia;
    pose proof (Hrest (uint_digits u));
    pose proof (Z.pow_pos_nonneg 10 (Z.of_nat (length (uint_digits u))));
    simpl Z.of_N in Hv; nia.
Qed.

Lemma digit_not_x c :
  is_Some (digit_val c) -> (c =? "x")%char || (c =? "X")%char = false.
Proof.
  intros [d Hd].
  destruct c as [[] [] [] [] [] [] [] []]; vm_compute in Hd;
    try discriminate Hd; done.
Qed.

(** Digits not followed by an [x] are read in radix 10. *)
Lemma radix_decimal (body : list ascii) :
  (∀ x r, body = "0"%char :: x :: r ->
          (x =? "x")%char || (x =? "X")%char = false) ->
  (match body with
   | "0"%char :: x :: r =>
       if (x =? "x")%char || (x =? "X")%char then (16%N, hex_val, r)
       else (10%N, digit_val, body)
   | _ => (10%N, digit_val, body)
   end) = (10%N, digit_val, body).
Proof.
  intros Hx. destruct body as [|c [|x r]]; [done|..].
  - by destruct c as [[] [] [] [] [] [] [] []].
  - destruct c as [[] [] [] [] [] [] [] []]; try done.
    by rewrite (Hx x r eq_refl).
Qed.

(** [parseInt] on a sign, digits, and then nothing or a decimal point. *)
Lemma parseInt_chars_digits (neg : bool) (ip tail : list ascii) :
  all_digits ip -> ip ≠ [] ->
  tail = [] ∨ (∃ r, tail = "."%char :: r) ->
  parseInt_chars ((if neg then ["-"%char] else []) ++ ip ++ tail)
  = signed neg (digits_value 10 (digit_vals ip)) 0.
Proof.
  intros Hip Hne Htail. unfold parseInt_chars.
  destruct (parseFloat_chars_start neg (ip ++ tail)) as [-> _].
  { destruct Hip as [|c l Hc _]; [done|]. by exists c, (l ++ tail). }
  rewrite radix_decimal.
  - rewrite span_digits_app; [|done|by destruct Htail as [-> | [r ->]]].
    destruct (digit_vals ip) eqn:Hv; [|done].
    apply (f_equal length) in Hv. rewrite length_digit_vals in Hv by done.
    by destruct ip.
  - intros x r Heq.
    destruct Hip as [|c [|c' l] Hc Hl]; [done|..].
    + destruct Htail as [-> | [r' ->]]; [done|].
      simpl in Heq. by injection Heq as _ <- _.
    + simpl in Heq. injection Heq as _ <- _.
      apply digit_not_x. by inversion Hl.
Qed.

Lemma signed_num_of_Z neg p :
  signed neg (N.pos p) 0 = num_of_Z (if neg then Z.neg p else Z.pos p).
Proof. by destruct neg. Qed.

Lemma signed_of_value neg v T :
  Z.of_N v = T -> 1 <= T ->
  signed neg v 0 = num_of_Z (if neg then - T else T).
Proof.
  intros <- HT. destruct v as [|q]; [simpl in HT; lia|].
  rewrite signed_num_of_Z. by destruct neg.
Qed.

(** X19. [parseInt] applied to a number whose integer part has between 1
    and 21 digits gives that integer part: a whole number is returned as it
    is, a fractional one is cut towards zero, not rounded. *)
Theorem parseInt_number x :
  1 <= Z.abs (number_trunc x) < 10 ^ 21 ->
  parseInt (JNum x) = num_of_Z (number_trunc x).
Proof.
  destruct x as [| | |neg m e]; [simpl; lia..|]. intros Hrange.
  unfold parseInt, to_chars, number_to_chars.
  destruct (normalize_Dec neg m e) as (s & e' & -> & Hs & Hle & Hval).
  cbv beta iota zeta.
  destruct (digits_of_pos_spec s) as (Ha & Hv & Hne).
  pose proof (digits_of_pos_bounds s) as Hb. simpl in Hb.
  set (ds := digits_of_pos s) in *.
  set (k := Z.of_nat (length ds)) in *.
  assert (Hk : 1 <= k) by (subst k; destruct ds; [done|simpl; lia]).
  (* the integer part in terms of the canonical mantissa and exponent *)
  set (T := if 0 <=? e' then Z.pos s * 10 ^ e' else Z.pos s / 10 ^ (- e')).
  assert (HT : number_trunc (Dec neg m e) = if neg then - T else T).
  { assert (HaT : (if 0 <=? e then Z.pos m * 10 ^ e
                   else Z.pos m / 10 ^ (- e)) = T).
    { subst T. rewrite <- Hval.
      pose proof (Z.pow_pos_nonneg 10 (e' - e)).
      destruct (Z.leb_spec 0 e), (Z.leb_spec 0 e'); try lia.
      - assert (10 ^ (e' - e) * 10 ^ e = 10 ^ e') as <-
          by (rewrite <- Z.pow_add_r by lia; f_equal; lia).
        lia.
      - pose proof (Z.pow_pos_nonneg 10 (- e)).
        assert (10 ^ e' * 10 ^ (- e) = 10 ^ (e' - e)) as <-
          by (rewrite <- Z.pow_add_r by lia; f_equal; lia).
        rewrite Z.mul_assoc. apply Z.div_mul. lia.
      - pose proof (Z.pow_pos_nonneg 10 (- e')).
        assert (10 ^ (- e') * 10 ^ (e' - e) = 10 ^ (- e)) as <-
          by (rewrite <- Z.pow_add_r by lia; f_equal; lia).
        apply Z.div_mul_cancel_r; lia. }
    unfold number_trunc. cbv zeta. by rewrite HaT. }
  rewrite HT in *.
  assert (HT0 : 0 <= T).
  { subst T. destruct (Z.leb_spec 0 e').
    - apply Z.mul_nonneg_nonneg; [lia|]. apply Z.pow_nonneg. lia.
    - apply Z.div_pos; [lia|]. apply Z.pow_pos_nonneg; lia. }
  assert (HTr : 1 <= T < 10 ^ 21) by (destruct neg; lia). clear Hrange.
  set (n := e' + k).
  destruct (Z.leb_spec 0 e') as [He'|He'].
  - (* a whole number: digits, then zeros *)
    assert (Hn21 : n <= 21).
    { destruct (Z.leb_spec n 21); [done|]. exfalso.
      assert (10 ^ 21 <= 10 ^ (k - 1) * 10 ^ e').
      { rewrite <- Z.pow_add_r by lia. apply Z.pow_le_mono_r; lia. }
      subst T. pose proof (Z.pow_pos_nonneg 10 e'). nia. }
    destruct (Z.leb_spec k n); [|lia]. destruct (Z.leb_spec n 21); [|lia].
    cbv beta iota delta [andb].
    replace (ds ++ replicate (Z.to_nat (n - k)) "0"%char)
      with ((ds ++ replicate (Z.to_nat (n - k)) "0"%char) ++ [])
      by apply app_nil_r.
    rewrite parseInt_chars_digits;
      [|by apply all_digits_app, all_digits_zeros|by destruct ds|by left].
    assert (HN : Z.of_N (digits_value 10
                   (digit_vals (ds ++ replicate (Z.to_nat (n - k)) "0"%char)))
                 = T).
    { rewrite digit_vals_app, digit_vals_zeros, digits_value_zeros_r, Hv.
      subst T n. simpl. f_equal. f_equal. lia. }
    apply signed_of_value; [done|lia].
  - (* a fraction: the digits before the point *)
    assert (Hpow : 10 ^ (- e') <= Z.pos s).
    { subst T. pose proof (Z.pow_pos_nonneg 10 (- e')).
      destruct (Z.le_gt_cases (10 ^ (- e')) (Z.pos s)); [done|].
      rewrite Z.div_small in HTr by lia. lia. }
    assert (Hn0 : 0 < n).
    { destruct (Z.ltb_spec 0 n); [done|]. exfalso.
      assert (10 ^ k <= 10 ^ (- e')) by (apply Z.pow_le_mono_r; lia). lia. }
    assert (Hn21 : n <= 21).
    { destruct (Z.leb_spec n 21); [done|]. exfalso.
      assert (10 ^ 21 * 10 ^ (- e') <= 10 ^ (k - 1)).
      { rewrite <- Z.pow_add_r by lia. apply Z.pow_le_mono_r; lia. }
      assert (10 ^ 21 <= T); [|lia]. subst T.
      apply Z.div_le_lower_bound; [apply Z.pow_pos_nonneg; lia|lia]. }
    destruct (Z.leb_spec k n); [lia|]. destruct (Z.ltb_spec 0 n); [|lia].
    destruct (Z.leb_spec n 21); [|lia]. cbv beta iota delta [andb].
    rewrite parseInt_chars_digits;
      [|apply Forall_take, Ha| |by eauto].
    + assert (HN : Z.of_N (digits_value 10 (digit_vals (take (Z.to_nat n) ds)))
                   = T).
      { pose proof (digits_value_app (digit_vals (take (Z.to_nat n) ds))
                      (digit_vals (drop (Z.to_nat n) ds))) as Happ.
        rewrite <- digit_vals_app, take_drop, Hv in Happ.
        rewrite length_digit_vals, length_drop in Happ
          by apply Forall_drop, Ha.
        pose proof (digits_value_bound (drop (Z.to_nat n) ds)
                      (Forall_drop _ _ _ Ha)) as Hlow.
        rewrite length_drop in Hlow.
        replace (Z.of_nat (length ds - Z.to_nat n)) with (- e') in *
          by (subst n k; lia).
        subst T.
        apply (Z.div_unique_pos _ _ _
                 (Z.of_N (digits_value 10
                            (digit_vals (drop (Z.to_nat n) ds)))));
          [done|]. simpl in Happ. lia. }
      apply signed_of_value; [done|lia].
    + destruct (Z.to_nat n) eqn:Hz; [lia|]. by destruct ds.
Qed.

(** ** The heartbeat *)

Lemma heartbeat_snoc clients ws st alive :
  Heartbeat.heartbeat (clients ++ [ws]) st alive
  = Heartbeat.visit (Heartbeat.heartbeat clients st alive) ws.
Proof. unfold Heartbeat.heartbeat. by rewrite foldl_app. Qed.



Lemma heartbeat_flags clients st alive ws :
  ws ∈ clients ->
  Heartbeat.isAlive (Heartbeat.heartbeat clients st alive) !! ws = Some false.
Proof.
  induction clients as [|x clients IH] using rev_ind; intros Hin.
  - by apply elem_of_nil in Hin.
  - rewrite heartbeat_snoc. unfold Heartbeat.visit.
    case_bool_decide as Hx; simpl.
    + apply elem_of_app in Hin as [Hin|Hin]; [by apply IH|].
      apply list_elem_of_singleton in Hin. by subst.
    + destruct (decide (ws = x)) as [->|Hne]; [by rewrite lookup_insert_eq|].
      rewrite lookup_insert_ne by done.
      apply elem_of_app in Hin as [Hin|Hin]; [by apply IH|].
      by apply list_elem_of_singleton in Hin.
Qed.

Lemma heartbeat_drops clients st alive ws :
  ws ∈ clients -> alive !! ws = Some false ->
  (ws ∉ wsClients (Heartbeat.server (Heartbeat.heartbeat clients st alive)))
  ∧ (ws, Heartbeat.Terminate)
    ∈ Heartbeat.calls (Heartbeat.heartbeat clients st alive)
  ∧ Heartbeat.isAlive (Heartbeat.heartbeat clients st alive) !! ws
    = Some false.
Proof.
  intros Hin Hf.
  assert (Hkeep : ∀ l,
    Heartbeat.isAlive (Heartbeat.heartbeat l st alive) !! ws = Some false).
  { induction l as [|x l IHl] using rev_ind; [done|].
    rewrite heartbeat_snoc. unfold Heartbeat.visit.
    case_bool_decide; simpl; [done|].
    destruct (decide (ws = x)) as [->|Hne]; [by rewrite lookup_insert_eq|].
    by rewrite lookup_insert_ne. }
  split; [|split; [|apply Hkeep]].
  - induction clients as [|x clients IH] using rev_ind;
      [by apply elem_of_nil in Hin|].
    rewrite heartbeat_snoc. unfold Heartbeat.visit.
    destruct (decide (x = ws)) as [->|Hne].
    + rewrite bool_decide_eq_true_2 by apply Hkeep. simpl.
      rewrite elem_of_difference, elem_of_singleton. tauto.
    + assert (Hin' : ws ∈ clients).
      { apply elem_of_app in Hin as [Hin|Hin]; [done|].
        apply list_elem_of_singleton in Hin. by subst. }
      case_bool_decide; simpl; [|by apply IH].
      rewrite elem_of_difference. intros [Hx _]. by apply (IH Hin').
  - induction clients as [|x clients IH] using rev_ind;
      [by apply elem_of_nil in Hin|].
    rewrite heartbeat_snoc. unfold Heartbeat.visit.
    destruct (decide (x = ws)) as [->|Hne].
    + rewrite bool_decide_eq_true_2 by apply Hkeep. simpl.
      apply elem_of_app. right. by apply list_elem_of_singleton.
    + assert (Hin' : ws ∈ clients).
      { apply elem_of_app in Hin as [Hin|Hin]; [done|].
        apply list_elem_of_singleton in Hin. by subst. }
      case_bool_decide; simpl; apply elem_of_app; left; by apply IH.
Qed.

Lemma heartbeat_unvisited clients st alive ws :
  ws ∉ clients ->
  Heartbeat.isAlive (Heartbeat.heartbeat clients st alive) !! ws = alive !! ws
  ∧ (ws ∈ wsClients (Heartbeat.server (Heartbeat.heartbeat clients st alive))
     <-> ws ∈ wsClients st).
Proof.
  induction clients as [|x clients IH] using rev_ind; intros Hout; [done|].
  apply not_elem_of_app in Hout as [Hout Hx].
  apply not_elem_of_cons in Hx as [Hne _].
  destruct (IH Hout) as [Hflag Hreg].
  rewrite heartbeat_snoc. unfold Heartbeat.visit.
  case_bool_decide; simpl.
  - split; [done|]. rewrite elem_of_difference, elem_of_singleton. tauto.
  - by rewrite lookup_insert_ne.
Qed.

Lemma heartbeat_keeps clients st alive ws :
  NoDup clients -> ws ∈ clients -> alive !! ws ≠ Some false ->
  (ws ∈ wsClients (Heartbeat.server (Heartbeat.heartbeat clients st alive))
   <-> ws ∈ wsClients st)
  ∧ (ws, Heartbeat.Ping)
    ∈ Heartbeat.calls (Heartbeat.heartbeat clients st alive)
  ∧ Heartbeat.isAlive (Heartbeat.heartbeat clients st alive) !! ws
    = Some false.
Proof.
  induction clients as [|x clients IH] using rev_ind; intros Hnd Hin Hflag;
    [by apply elem_of_nil in Hin|].
  apply NoDup_app in Hnd as (Hnd & Hfresh & _).
  rewrite heartbeat_snoc. unfold Heartbeat.visit.
  destruct (decide (x = ws)) as [->|Hne].
  - assert (Hout : ws ∉ clients).
    { intros Hws. apply (Hfresh ws Hws). by apply list_elem_of_singleton. }
    destruct (heartbeat_unvisited clients st alive ws Hout) as [Hsame Hreg].
    rewrite bool_decide_eq_false_2 by (by rewrite Hsame). simpl.
    split; [done|]. split; [|by rewrite lookup_insert_eq].
    apply elem_of_app. right. by apply list_elem_of_singleton.
  - assert (Hin' : ws ∈ clients).
    { apply elem_of_app in Hin as [Hin|Hin]; [done|].
      apply list_elem_of_singleton in Hin. by subst. }
    destruct (IH Hnd Hin' Hflag) as (Hreg & Hcall & Hfalse).
    case_bool_decide; simpl.
    + split; [|split; [|done]].
      * rewrite elem_of_difference, elem_of_singleton.
        intuition congruence.
      * apply elem_of_app. by left.
    + split; [done|]. split; [apply elem_of_app; by left|].
      by rewrite lookup_insert_ne.
Qed.

(** X21. Two ticks.  A socket visited by a tick and by the next one, with
    no pong in between, is terminated by the second tick and is out of the
    registry after it, whatever else the server did meanwhile and whether
    or not other sockets answered.  A registered socket whose pong arrives
    between the two ticks is pinged again and stays registered. *)
Theorem heartbeat_two_ticks clients1 clients2 st alive ws :
  ws ∈ clients1 -> ws ∈ clients2 -> NoDup clients2 ->
  let b1 := Heartbeat.heartbeat clients1 st alive in
  (∀ st' pongs,
     ws ∉ pongs ->
     let b2 := Heartbeat.heartbeat clients2 st'
                 (foldr Heartbeat.on_pong (Heartbeat.isAlive b1) pongs) in
     (ws ∉ wsClients (Heartbeat.server b2))
     ∧ (ws, Heartbeat.Terminate) ∈ Heartbeat.calls b2)
  ∧ (∀ st' pongs,
       ws ∈ wsClients st' ->
       let b2 := Heartbeat.heartbeat clients2 st'
                   (Heartbeat.on_pong ws
                      (foldr Heartbeat.on_pong (Heartbeat.isAlive b1) pongs)) in
       ws ∈ wsClients (Heartbeat.server b2)
       ∧ (ws, Heartbeat.Ping) ∈ Heartbeat.calls b2
       ∧ Heartbeat.isAlive b2 !! ws = Some false).
Proof.
  intros H1 H2 Hnd b1.
  pose proof (heartbeat_flags clients1 st alive ws H1) as Hflag. fold b1 in Hflag.
  split.
  - intros st' pongs Hpongs b2.
    assert (Hstill : foldr Heartbeat.on_pong (Heartbeat.isAlive b1) pongs !! ws
                     = Some false).
    { induction pongs as [|x pongs IH]; [done|]. simpl.
      apply not_elem_of_cons in Hpongs as [Hne Hpongs].
      unfold Heartbeat.on_pong at 1. rewrite lookup_insert_ne by done.
      by apply IH. }
    destruct (heartbeat_drops clients2 st' _ ws H2 Hstill) as (? & ? & _).
    done.
  - intros st' pongs Hreg b2.
    set (alive' := Heartbeat.on_pong ws _) in *.
    assert (Htrue : alive' !! ws = Some true)
      by (subst alive'; unfold Heartbeat.on_pong at 1;
          by rewrite lookup_insert_eq).
    destruct (heartbeat_keeps clients2 st' alive' ws Hnd H2)
      as (Hkept & Hcall & Hfalse); [congruence|].
    fold b2 in Hkept, Hcall, Hfalse.
    split; [by apply Hkept|]. by split.
Qed.

(** ** Online devices *)

Lemma number_to_Z_num_of_Z z :
  number_to_Z (num_of_Z z) = z ∧ is_whole (num_of_Z z).
Proof.
  destruct z as [|q|q]; [done| |].
  - destruct (normalize_whole false q 0) as (m' & e' & Hn & He & Hv); [done|].
    unfold num_of_Z. rewrite Hn. simpl in *. split; [lia|done].
  - destruct (normalize_whole true q 0) as (m' & e' & Hn & He & Hv); [done|].
    unfold num_of_Z. rewrite Hn. simpl in *. split; [lia|done].
Qed.

Lemma scaled_whole e x :
  is_whole x -> 0 <= e <= exponent_of x ->
  number_to_Z x = scaled e x * 10 ^ e.
Proof.
  destruct x as [| | |neg m e']; simpl; try done. intros He' He.
  assert (10 ^ e' = 10 ^ (e' - e) * 10 ^ e) as ->
    by (rewrite <- Z.pow_add_r by lia; f_equal; lia).
  lia.
Qed.

Lemma number_lt_whole a b :
  is_whole a -> is_whole b ->
  number_lt a b = (number_to_Z a <? number_to_Z b).
Proof.
  intros Ha Hb.
  assert (Hea : 0 <= exponent_of a) by (by destruct a).
  assert (Heb : 0 <= exponent_of b) by (by destruct b).
  set (e := Z.min (exponent_of a) (exponent_of b)).
  assert (Hlt : number_lt a b = (scaled e a <? scaled e b))
    by (by destruct a, b).
  rewrite Hlt.
  rewrite (scaled_whole e a), (scaled_whole e b) by (done || lia).
  pose proof (Z.pow_pos_nonneg 10 e).
  destruct (Z.ltb_spec (scaled e a) (scaled e b)),
    (Z.ltb_spec (scaled e a * 10 ^ e) (scaled e b * 10 ^ e)); try done; nia.
Qed.

Section online_properties.
Variable string_to_number : string -> number.

Lemma online_whole cfg now pos t :
  timestamp pos = JNum (num_of_Z t) ->
  online string_to_number cfg now pos = (now - t <? onlineWindowS cfg * 1000).
Proof.
  intros Hts. unfold online. rewrite Hts. simpl.
  destruct (number_to_Z_num_of_Z (now - onlineWindowS cfg * 1000)) as [H1 W1].
  destruct (number_to_Z_num_of_Z t) as [H2 W2].
  rewrite number_lt_whole, H1, H2 by done.
  destruct (Z.ltb_spec (now - onlineWindowS cfg * 1000) t),
    (Z.ltb_spec (now - t) (onlineWindowS cfg * 1000)); done || lia.
Qed.

Lemma online_count_cons cfg now pos l :
  online_count string_to_number cfg now (pos :: l)
  = ((if online string_to_number cfg now pos then 1 else 0) + online_count string_to_number cfg now l)%nat.
Proof.
  unfold online_count. rewrite filter_cons.
  destruct (decide (online string_to_number cfg now pos = true)) as [->|Hn]; [done|].
  by destruct (online string_to_number cfg now pos).
Qed.

(** X22. When a record counts as online.  A record stamped by the server
    (no [ts] in the payload, or a falsy one) at [now0] is online at [now]
    exactly when [now - now0 < onlineWindowS * 1000]; a record that carries
    a whole number [t] as [ts], for instance the uptime in milliseconds
    the firmware sends, is online exactly when [now - t] is below the
    window, whenever it was received; and a timestamp whose conversion is
    NaN is never online. *)
Theorem online_window cfg now0 now data :
  let p := make_position now0 data in
  (truthy (prop data "ts") = false ->
   online string_to_number cfg now p = (now - now0 <? onlineWindowS cfg * 1000))
  ∧ (∀ t, t ≠ 0 -> prop data "ts" = JNum (num_of_Z t) ->
       online string_to_number cfg now p = (now - t <? onlineWindowS cfg * 1000))
  ∧ (to_number string_to_number (timestamp p) = NaN ->
     online string_to_number cfg now p = false).
Proof.
  intros p. split; [|split].
  - intros Hts. apply online_whole. subst p. simpl. unfold js_or.
    by rewrite Hts.
  - intros t Ht Hts. apply online_whole. subst p. simpl. unfold js_or.
    rewrite Hts. simpl.
    destruct (number_to_Z_num_of_Z t) as [Hv _].
    destruct (num_of_Z t); simpl in *; done || lia.
  - intros Hnan. unfold online. rewrite Hnan.
    by destruct (num_of_Z _).
Qed.

(** X23. The figures of GET /api/stats after an accepted payload, in any
    state the server reaches: [onlineDevices] is the number of online
    records among the other devices plus one when the new record is online,
    so a device counts once however many payloads it sent; it is at most
    the number of devices GET /api/positions lists; and [totalDevices] is
    0, so [onlineDevices] exceeds it as soon as one device is online. *)
Theorem online_devices_after_update cfg start evs now0 now data :
  missing_required data = false ->
  let st := run cfg (initial start) evs in
  let p := make_position now0 data in
  let st' := processLocationUpdate cfg now0 data st in
  online_devices string_to_number cfg now st'
  = ((if online string_to_number cfg now p then 1 else 0)
     + online_count string_to_number cfg now
         (map_to_list (delete (key_of p) (devicePositions st))).*2)%nat
  ∧ (online_devices string_to_number cfg now st' <= length (listed st'))%nat
  ∧ totalDevices (serverStats st') = 0.
Proof.
  intros Hm st p st'. split; [|split].
  - unfold online_devices, listed. subst st'.
    rewrite (processLocationUpdate_devicePositions cfg) by done. fold p.
    rewrite <- insert_delete_eq.
    pose proof (map_to_list_insert (delete (key_of p) (devicePositions st))
                  (key_of p) p (lookup_delete_eq _ _)) as Hperm.
    rewrite <- online_count_cons. unfold online_count.
    apply Permutation_length, filter_Permutation.
    by rewrite Hperm.
  - apply length_filter.
  - pose proof (counters_run cfg start (evs ++ [MqttMessage now0 data]))
      as [_ Hd].
    by rewrite run_snoc in Hd.
Qed.

End online_properties.

(** ** Instances of the further properties *)


Lemma header_before_query_witness :
  status (post_track sample_config 7 header_and_query_request two_sockets).2
  ≠ 200
  ∧ status (post_track sample_config 7 query_token_request two_sockets).2
    = 200.
Proof.
  destruct (header_before_query sample_config 7 header_and_query_request
              two_sockets) as (Hheader & _).
  destruct (header_before_query sample_config 7 query_token_request
              two_sockets) as (_ & Hquery).
  split.
  - apply Hheader; [reflexivity|]. vm_compute. discriminate.
  - apply Hquery; reflexivity.
Defined.

Lemma listing_after_update_witness :
  make_position 7 new_york
  ∈ listed (processLocationUpdate sample_config 7 new_york two_sockets)
  ∧ length (listed (processLocationUpdate sample_config 7 new_york
                      two_sockets))
    = 1%nat.
Proof.
  destruct (listing_after_update sample_config 7 new_york two_sockets eq_refl)
    as (_ & Hin & _ & Hlen).
  split; [exact Hin|]. rewrite Hlen. reflexivity.
Defined.

Lemma stores_agree_witness :
  key_of (make_position 1 new_york) = JStr "D1"
  ∧ make_position 1 new_york
    ∈ accepted_records sample_config [MqttMessage 1 new_york].
Proof.
  destruct (stores_agree sample_config 0 [MqttMessage 1 new_york])
    as (_ & Hlatest & _).
  apply (Hlatest (JStr "D1") (make_position 1 new_york)). reflexivity.
Defined.

Lemma registry_counter_witness :
  is_Some (sockets two_sockets !! 1%nat).
Proof.
  destruct (registry_counter sample_config 0
              [WsConnection; WsConnection; WsClose 0%nat]) as (_ & Hreg).
  apply (Hreg 1%nat). apply (bool_decide_unpack _). vm_compute. exact I.
Defined.

Lemma close_twice_witness :
  on_close 0%nat two_sockets = two_sockets.
Proof.
  destruct (close_twice sample_config 0
              [WsConnection; WsConnection; WsClose 0%nat] 0%nat)
    as (_ & _ & Hgone).
  apply Hgone. apply (bool_decide_unpack _). vm_compute. exact I.
Defined.

Lemma subscriber_stream_witness :
  let evs := [MqttMessage 7 new_york; WsClose 1%nat; MqttMessage 8 only_lat;
              MqttMessage 9 dortmund] in
  let ws := fresh (dom (sockets two_sockets)) in
  let st := run sample_config (on_connection two_sockets) evs in
  ws ∈ wsClients st
  ∧ sockets st !! ws
    = Some {| readyState := OPEN;
              sent := snapshot_of two_sockets
                      ++ (MsgUpdate <$> accepted_records sample_config evs) |}.
Proof.
  apply (subscriber_stream sample_config two_sockets
           [MqttMessage 7 new_york; WsClose 1%nat; MqttMessage 8 only_lat;
            MqttMessage 9 dortmund]).
  apply Forall_forall. repeat constructor; vm_compute; (done || lia).
Defined.

Lemma load_config_defaults_witness :
  historyPoints (load_config {["HISTORY_POINTS"%string := "many"%string]})
  = 500
  ∧ deviceToken (load_config {["HISTORY_POINTS"%string := "many"%string]})
    = "default_token"%string.
Proof.
  destruct (load_config_defaults
              {["HISTORY_POINTS"%string := "many"%string]})
    as (_ & _ & _ & Hpoints & _ & Htoken).
  split.
  - apply Hpoints. reflexivity.
  - apply Htoken. left. reflexivity.
Defined.

Lemma negative_bound_empties_history_witness :
  let evs := [MqttMessage 1 new_york; MqttMessage 2 new_york] in
  let st := run negative_config (initial 0) evs in
  (∀ k history, deviceHistory st !! k = Some history -> history = [])
  ∧ ∀ k, devicePositions st !! k
         = last (records_of k (accepted_records negative_config evs)).
Proof.
  apply (negative_bound_empties_history negative_config 0
           [MqttMessage 1 new_york; MqttMessage 2 new_york]).
  reflexivity.
Defined.

Lemma row_ids_stay_unique_witness :
  let db := Tables.insert_position "D1" (Dec false 407128 (-4))
              (Dec true 74006 (-3)) (Zero false) (Zero false) (Zero false)
              100 Tables.empty in
  let db' := Tables.insert_position "D1" (Dec false 515 (-1))
               (Dec false 7 0) (Zero false) (Zero false) (Zero false) 200
               {| Tables.rows := Sqlite.prune_spec "D1" 0 (Tables.rows db);
                  Tables.sequence := Tables.sequence db |} in
  Tables.rows db = [row 1 "D1" 100]
  ∧ Sqlite.id <$> Tables.rows db' = [2]
  ∧ ∀ r', r' ∈ Tables.rows db' -> Sqlite.id r' ≠ 1.
Proof.
  intros db db'.
  assert (Hrun : Tables.statements 0 Tables.empty db).
  { eapply Tables.statements_then; [|apply Tables.run_insert].
    apply Tables.statements_done. }
  assert (Hmore : Tables.statements 0 db db').
  { eapply Tables.statements_then; [|apply Tables.run_insert].
    eapply Tables.statements_then;
      [|apply (Tables.run_cleanup 0 db "D1" _
                 (prune_spec_is_a_result "D1" 0 (Tables.rows db)))].
    apply Tables.statements_done. }
  destruct (row_ids_stay_unique 0 db db' Hrun Hmore)
    as (_ & _ & _ & Hfreed & _).
  split; [reflexivity|]. split; [reflexivity|].
  intros r' Hr'.
  apply (Hfreed (row 1 "D1" 100) r'); [|vm_compute|exact Hr'].
  - apply list_elem_of_singleton. reflexivity.
  - intros Hin. apply list_elem_of_singleton in Hin. discriminate Hin.
Defined.

Lemma cleanup_decided_witness :
  (row 1 "D1" 100 ∉ Sqlite.prune_spec "D1" 2 sample_rows)
  ∧ (row 3 "D1" 300 ∈ Sqlite.prune_spec "D1" 2 sample_rows).
Proof.
  assert (Hnd : NoDup (Sqlite.id <$> sample_rows))
    by (apply (bool_decide_unpack _); vm_compute; exact I).
  assert (H1 : row 1 "D1" 100 ∈ Sqlite.where_device "D1" sample_rows)
    by (apply (bool_decide_unpack _); vm_compute; exact I).
  assert (H3 : row 3 "D1" 300 ∈ Sqlite.where_device "D1" sample_rows)
    by (apply (bool_decide_unpack _); vm_compute; exact I).
  assert (Hlim : 0 <= 2) by lia.
  destruct (cleanup_decided "D1" 2 sample_rows _ (row 1 "D1" 100) Hnd Hlim
              (prune_spec_is_a_result "D1" 2 sample_rows) H1) as (Hout & _).
  destruct (cleanup_decided "D1" 2 sample_rows _ (row 3 "D1" 300) Hnd Hlim
              (prune_spec_is_a_result "D1" 2 sample_rows) H3) as (_ & Hin).
  split.
  - apply Hout. vm_compute. discriminate.
  - apply Hin. vm_compute. discriminate.
Defined.

Lemma cleanup_negative_bound_witness :
  Sqlite.prune_spec "D1" (-1) sample_rows = sample_rows.
Proof.
  apply (cleanup_negative_bound "D1" (-1) sample_rows); [lia|].
  apply prune_spec_is_a_result.
Defined.

Lemma upsert_device_replaces_witness :
  let db' := Tables.upsert_device 20 "D1" 200 (Dec false 515 (-1))
               (Dec false 7 0) (Dec false 125 (-1)) (Dec false 9 1)
               (Dec false 8 0) one_device in
  NoDup (Tables.device_id <$> Tables.devices db')
  ∧ (∃ i, filter (fun x => Tables.device_id x = "D1"%string)
                 (Tables.devices db')
          = [ {| Tables.id := i; Tables.device_id := "D1";
                 Tables.last_seen := 200;
                 Tables.last_lat := Dec false 515 (-1);
                 Tables.last_lng := Dec false 7 0;
                 Tables.last_speed := Dec false 125 (-1);
                 Tables.last_heading := Dec false 9 1;
                 Tables.last_sats := Dec false 8 0;
                 Tables.created_at := 20;
                 Tables.updated_at := 20 |} ]
          ∧ Tables.devices_sequence db' = i
          ∧ Tables.devices_sequence one_device < i
          ∧ ∀ x, x ∈ Tables.devices one_device -> Tables.id x < i)
  ∧ filter (fun x => Tables.device_id x ≠ "D1"%string) (Tables.devices db')
    = filter (fun x => Tables.device_id x ≠ "D1"%string)
             (Tables.devices one_device).
Proof.
  apply (upsert_device_replaces 20 "D1" 200 (Dec false 515 (-1))
           (Dec false 7 0) (Dec false 125 (-1)) (Dec false 9 1)
           (Dec false 8 0) one_device).
  apply (bool_decide_unpack _). vm_compute. exact I.
Defined.

Lemma history_route_witness :
  let resp := Tables.get_history "D1" (obj [("limit", JStr "2")])
                (Sqlite.scan_oldest_id_first
                   (Sqlite.where_device "D1" sample_rows)) in
  Tables.status resp = 200
  ∧ Tables.count resp = 2%nat
  ∧ Tables.history_limit (obj [("limit", JStr "2")]) = 2.
Proof.
  intros resp.
  assert (Hres : Tables.history_result "D1" (obj [("limit", JStr "2")])
                   sample_rows resp)
    by (constructor; apply scan_oldest_id_first_ordered).
  destruct (history_route "D1" (obj [("limit", JStr "2")]) sample_rows resp
              Hres) as (Hstatus & _ & _ & _ & _ & Hcount & _).
  split; [exact Hstatus|]. split; [|reflexivity].
  apply Nat2Z.inj. rewrite Hcount. reflexivity.
Defined.

Lemma numeric_fields_kept_witness :
  lat (make_position 7 new_york) = Dec false 407128 (-4)
  ∧ lng (make_position 7 new_york) = Dec true 74006 (-3).
Proof.
  destruct (numeric_fields_kept 7 new_york (Dec false 407128 (-4)))
    as (Hlat & _).
  destruct (numeric_fields_kept 7 new_york (Dec true 740060 (-4)))
    as (_ & Hlng & _).
  split.
  - rewrite Hlat; reflexivity.
  - rewrite Hlng; reflexivity.
Defined.

Lemma parseInt_number_witness :
  parseInt (JNum (Dec true 1239 (-2))) = Dec true 12 0.
Proof.
  rewrite (parseInt_number (Dec true 1239 (-2))); [reflexivity|].
  vm_compute. split; [discriminate|reflexivity].
Defined.


Lemma heartbeat_two_ticks_witness :
  let b1 := Heartbeat.heartbeat [1%nat] two_sockets {[1%nat := true]} in
  let silent := Heartbeat.heartbeat [1%nat] (Heartbeat.server b1)
                  (Heartbeat.isAlive b1) in
  let answered := Heartbeat.heartbeat [1%nat] (Heartbeat.server b1)
                    (Heartbeat.on_pong 1%nat (Heartbeat.isAlive b1)) in
  (1%nat ∉ wsClients (Heartbeat.server silent))
  ∧ 1%nat ∈ wsClients (Heartbeat.server answered).
Proof.
  intros b1 silent answered.
  assert (Hin : 1%nat ∈ [1%nat]) by (apply list_elem_of_singleton; reflexivity).
  assert (Hnd : NoDup [1%nat])
    by (apply (bool_decide_unpack _); vm_compute; exact I).
  destruct (heartbeat_two_ticks [1%nat] [1%nat] two_sockets {[1%nat := true]}
              1%nat Hin Hin Hnd) as (Hsilent & Hanswered).
  split.
  - destruct (Hsilent (Heartbeat.server b1) []) as (Hout & _);
      [apply not_elem_of_nil|exact Hout].
  - destruct (Hanswered (Heartbeat.server b1) []) as (Hkept & _);
      [|exact Hkept].
    apply (bool_decide_unpack _). vm_compute. exact I.
Defined.

Lemma online_window_witness :
  online (fun _ => NaN) sample_config 30000 (make_position 1000 new_york)
  = true
  ∧ online (fun _ => NaN) sample_config 1640995200000
      (make_position 1640995200000 (<["ts" := JNum (Dec false 5 3)]> new_york))
    = false
  ∧ online (fun _ => NaN) sample_config 7 (make_position 7 text_ts) = false.
Proof.
  destruct (online_window (fun _ => NaN) sample_config 1000 30000 new_york)
    as (Hclock & _ & _).
  destruct (online_window (fun _ => NaN) sample_config 1640995200000
              1640995200000 (<["ts" := JNum (Dec false 5 3)]> new_york))
    as (_ & Huptime & _).
  destruct (online_window (fun _ => NaN) sample_config 7 7 text_ts)
    as (_ & _ & Htext).
  split; [|split].
  - rewrite Hclock; reflexivity.
  - rewrite (Huptime 5000); [reflexivity|lia|reflexivity].
  - apply Htext. reflexivity.
Defined.

Lemma online_devices_after_update_witness :
  online_devices (fun _ => NaN) sample_config 30000
    (processLocationUpdate sample_config 2000 dortmund
       (run sample_config (initial 0) [MqttMessage 1000 new_york]))
  = 2%nat
  ∧ totalDevices
      (serverStats
         (processLocationUpdate sample_config 2000 dortmund
            (run sample_config (initial 0) [MqttMessage 1000 new_york])))
    = 0.
Proof.
  destruct (online_devices_after_update (fun _ => NaN) sample_config 0
              [MqttMessage 1000 new_york] 2000 30000 dortmund eq_refl)
    as (Hcount & _ & Htotal).
  split; [|exact Htotal]. rewrite Hcount. reflexivity.
Defined.
